(** * UTXO-DUMP: the block-file decoder of [utxo/blockdb.py]

    A shallow embedding of the decoder and the properties of its readers.

    - A [BytesIO] (and the binary file object of [read_blockfile]) is a
      buffer with a read offset; [stream.read(n)] returns the bytes that
      are there, at most [n] of them, and never raises.
    - [struct.unpack] raises [struct.error] when the buffer it is given
      does not have the size of the format; [assert] raises
      [AssertionError].  Both propagate to the caller of the decoder.
    - Python integers are unbounded: they are [Z]; a count or a length
      that is known to be non-negative is a [nat] where it drives a read
      or a loop. *)

From Stdlib Require Import ZArith List Lia Bool PeanoNat.
From Stdlib Require Import Strings.Byte.
From Stdlib Require Strings.Ascii Strings.String.
From Stdlib Require Numbers.DecimalString Numbers.DecimalZ Numbers.DecimalPos.
Import ListNotations.
Import Ascii.AsciiSyntax String.StringSyntax.
Delimit Scope string_scope with string.
Delimit Scope char_scope with char.

Local Open Scope Z_scope.

(** ** Bytes and little-endian integers *)

Definition bytes := list byte.

Definition byte_to_Z (b : byte) : Z := Z.of_N (Byte.to_N b).

(** The value of a little-endian unsigned integer of any width. *)
Fixpoint le_decode (bs : bytes) : Z :=
  match bs with
  | [] => 0
  | b :: rest => byte_to_Z b + 256 * le_decode rest
  end.

Definition bytes_eqb (a b : bytes) : bool :=
  if list_eq_dec Byte.byte_eq_dec a b then true else false.

(** [l[off : off + len]] *)
Definition slice (off len : nat) (l : bytes) : bytes :=
  firstn len (skipn off l).

(** ** Exceptions and the decoder monad *)

Inductive exn : Set :=
| StructError      (* struct.error: unpack requires a buffer of n bytes *)
| AssertionError.  (* a failed assert *)

Inductive result (A : Type) : Type :=
| Ok (a : A)
| Raise (e : exn).

Arguments Ok {A} a.
Arguments Raise {A} e.

Record BytesIO : Set := mkBytesIO { buf : bytes; pos : nat }.

(** [io.BytesIO(b)] *)
Definition BytesIO_of (b : bytes) : BytesIO := {| buf := b; pos := 0 |}.

Definition remaining (s : BytesIO) : bytes := skipn (pos s) (buf s).

Definition advance (s : BytesIO) (k : nat) : BytesIO :=
  {| buf := buf s; pos := (pos s + k)%nat |}.

(** A computation over a stream: it returns a value and the stream as it
    left it, or raises. *)
Definition M (A : Type) : Type := BytesIO -> result (A * BytesIO).

Definition pure {A} (a : A) : M A := fun s => Ok (a, s).

Definition bind {A B} (m : M A) (k : A -> M B) : M B :=
  fun s => match m s with
           | Ok (a, s') => k a s'
           | Raise e => Raise e
           end.

Declare Scope dec_scope.
Delimit Scope dec_scope with dec.
Notation "x <- m ;; k" := (bind m (fun x => k))
  (at level 100, m at next level, right associativity) : dec_scope.
Notation "m ;;; k" := (bind m (fun _ => k))
  (at level 100, right associativity) : dec_scope.
Local Open Scope dec_scope.

(** [stream.read(n)]: the next [n] bytes, or what is left of the buffer. *)
Definition read (n : nat) : M bytes :=
  fun s => let out := firstn n (remaining s) in
           Ok (out, advance s (length out)).

(** [unpack(fmt, b)] for the one-field little-endian formats ["<B"],
    ["<H"], ["<I"] and ["<Q"], given by their width in bytes. *)
Definition unpack (width : nat) (b : bytes) : M Z :=
  fun s => if Nat.eqb (length b) width then Ok (le_decode b, s)
           else Raise StructError.

(** [assert c] *)
Definition py_assert (c : bool) : M unit :=
  fun s => if c then Ok (tt, s) else Raise AssertionError.

(** ** The primitive readers *)

Definition MAX_SIZE : Z := 0x02000000.

(** [read_compact_size(stream, what)]; the label [what] is not used. *)
Definition read_compact_size : M Z :=
  b <- read 1 ;;
  n <- unpack 1 b ;;
  r <- (if n <? 253 then pure n
        else if n =? 253 then
          b <- read 2 ;; r <- unpack 2 b ;;
          py_assert (r >=? 253) ;;; pure r
        else if n =? 254 then
          b <- read 4 ;; r <- unpack 4 b ;;
          py_assert (r >=? 0x10000) ;;; pure r
        else
          b <- read 8 ;; r <- unpack 8 b ;;
          py_assert (r >=? 0x100000000) ;;; pure r) ;;
  py_assert (r <=? MAX_SIZE) ;;; pure r.

(** [n] calls of [read_elem], in order, their results collected in a
    list: the loop of [read_vector], and the comprehensions
    [[stream.read(k) for i in range(0, n)]] of [JoinSplit.from_bytes]. *)
Fixpoint read_elems {T} (read_elem : M T) (n : nat) : M (list T) :=
  match n with
  | O => pure []
  | S k => x <- read_elem ;; xs <- read_elems read_elem k ;; pure (x :: xs)
  end.

(** [read_vector(stream, read_elem, what)] *)
Definition read_vector {T} (read_elem : M T) : M (list T) :=
  n <- read_compact_size ;;
  read_elems read_elem (Z.to_nat n).

(** [read_bytes(stream, what)] *)
Definition read_bytes : M bytes :=
  n <- read_compact_size ;;
  read (Z.to_nat n).

(** ** The records and their decoders *)

Module OutPoint.
Record t : Set := mk { hash : bytes; n : Z }.

Definition from_bytes : M t :=
  hash <- read 32 ;;
  b <- read 4 ;; n <- unpack 4 b ;;
  pure (mk hash n).
End OutPoint.

Module TxIn.
Record t : Set := mk { prevout : OutPoint.t; script_sig : bytes; sequence : Z }.

Definition from_bytes : M t :=
  prevout <- OutPoint.from_bytes ;;
  sig <- read_bytes ;;
  b <- read 4 ;; sn <- unpack 4 b ;;
  pure (mk prevout sig sn).
End TxIn.

Module TxOut.
Record t : Set := mk { value : Z; pubkey : bytes }.

Definition from_bytes : M t :=
  b <- read 8 ;; value <- unpack 8 b ;;
  pubkey <- read_bytes ;;
  pure (mk value pubkey).
End TxOut.

Module JoinSplit.
Record t : Set := mk {
  vpub_old : Z;
  vpub_new : Z;
  anchor : bytes;
  nullifiers : list bytes;
  commitments : list bytes;
  ephemeral_key : bytes;
  random_seed : bytes;
  macs : list bytes;
  proof : list (bytes * bytes);
  ciphertexts : list bytes
}.

(** One [[stream.read(1), stream.read(k)]] of the proof. *)
Definition read_pair (k : nat) : M (bytes * bytes) :=
  flag <- read 1 ;; payload <- read k ;; pure (flag, payload).

Definition from_bytes : M t :=
  b <- read 8 ;; vpub_old <- unpack 8 b ;;
  b <- read 8 ;; vpub_new <- unpack 8 b ;;
  anchor <- read 32 ;;
  nullifiers <- read_elems (read 32) 2 ;;
  commitments <- read_elems (read 32) 2 ;;
  ephemeral_key <- read 32 ;;
  random_seed <- read 32 ;;
  macs <- read_elems (read 32) 2 ;;
  p0 <- read_pair 32 ;;
  p1 <- read_pair 32 ;;
  p2 <- read_pair 64 ;;
  p3 <- read_pair 32 ;;
  p4 <- read_pair 32 ;;
  p5 <- read_pair 32 ;;
  p6 <- read_pair 32 ;;
  p7 <- read_pair 32 ;;
  ciphertexts <- read_elems (read (585 + 16)) 2 ;;
  pure (mk vpub_old vpub_new anchor nullifiers commitments ephemeral_key
          random_seed macs [p0; p1; p2; p3; p4; p5; p6; p7] ciphertexts).
End JoinSplit.

Module Transaction.
Record t : Set := mk {
  version : Z;
  vin : list TxIn.t;
  vout : list TxOut.t;
  lock_time : Z;
  vjoinsplit : list JoinSplit.t;
  joinsplit_pubkey : bytes;
  joinsplit_sig : bytes
}.

Definition from_bytes : M t :=
  b <- read 4 ;; version <- unpack 4 b ;;
  vin <- read_vector TxIn.from_bytes ;;
  vout <- read_vector TxOut.from_bytes ;;
  b <- read 4 ;; locktime <- unpack 4 b ;;
  joinsplits <- (if version >=? 2 then read_vector JoinSplit.from_bytes
                 else pure []) ;;
  keysig <- (if (0 <? length joinsplits)%nat then
               joinsplit_pubkey <- read 32 ;;
               joinsplit_sig <- read 64 ;;
               pure (joinsplit_pubkey, joinsplit_sig)
             else pure ([], [])) ;;
  pure (mk version vin vout locktime joinsplits (fst keysig) (snd keysig)).
End Transaction.

Module BlockHeader.
Record t : Set := mk {
  version : bytes;
  hash_prev : bytes;
  hash_root : bytes;
  hash_extra : bytes;
  time : bytes;
  bits : bytes;
  nonce : bytes;
  solution : bytes
}.

Definition from_bytes : M t :=
  version <- read 4 ;;
  hash_prev <- read 32 ;;
  hash_root <- read 32 ;;
  hash_extra <- read 32 ;;
  time <- read 4 ;;
  bits <- read 4 ;;
  nonce <- read 32 ;;
  solution <- read_bytes ;;
  pure (mk version hash_prev hash_root hash_extra time bits nonce solution).
End BlockHeader.

Module Block.
Record t : Set := mk { header : BlockHeader.t; transactions : list Transaction.t }.

Definition from_bytes : M t :=
  header <- BlockHeader.from_bytes ;;
  transactions <- read_vector Transaction.from_bytes ;;
  pure (mk header transactions).
End Block.

(** ** The block-file reader *)

(** The body of the loop of [read_blockfile], entered with the [magic]
    just read: it gives the decoded block, the next [magic] and the file
    as it left it. *)
Definition read_record (expected_prefix magic : bytes)
  : M (Block.t * bytes) :=
  py_assert (bytes_eqb magic expected_prefix) ;;;
  b <- read 4 ;; size <- unpack 4 b ;;
  payload <- read (Z.to_nat size) ;;
  blk <- (fun f => match Block.from_bytes (BytesIO_of payload) with
                   | Ok (blk, _) => Ok (blk, f)
                   | Raise e => Raise e
                   end) ;;
  magic' <- read (length expected_prefix) ;;
  pure (blk, magic').

(** [while len(magic): ...], with the list [ret] of the blocks appended
    so far.  Every turn of the loop takes at least one byte of the file,
    so the number of bytes of the file bounds the number of turns; [None]
    is a loop cut short by [fuel]. *)
Fixpoint blockfile_loop (fuel : nat) (expected_prefix magic : bytes)
  (ret : list Block.t) (f : BytesIO) : option (result (list Block.t)) :=
  match fuel with
  | O => None
  | S fuel' =>
    if (0 <? length magic)%nat then
      match read_record expected_prefix magic f with
      | Raise e => Some (Raise e)
      | Ok ((blk, magic'), f') =>
        blockfile_loop fuel' expected_prefix magic' (ret ++ [blk]) f'
      end
    else Some (Ok ret)
  end.

(** [read_blockfile(name, expected_prefix)], on the contents [file] of the
    file [name]. *)
Definition read_blockfile (file : bytes) (expected_prefix : bytes)
  : option (result (list Block.t)) :=
  let f := BytesIO_of file in
  match read (length expected_prefix) f with
  | Ok (magic, f') =>
    blockfile_loop (S (length file)) expected_prefix magic [] f'
  | Raise e => Some (Raise e)
  end.

(** ** What the compact-size format says

    The width of the payload that follows a first byte [n], the least
    value a payload of that form may carry, and the value an encoding
    stands for. *)

Definition payload_width (n : Z) : nat :=
  if n <? 253 then 0 else if n =? 253 then 2
  else if n =? 254 then 4 else 8.

Definition min_value (n : Z) : Z :=
  if n <? 253 then 0 else if n =? 253 then 253
  else if n =? 254 then 0x10000 else 0x100000000.

Definition raw_value (tag : byte) (payload : bytes) : Z :=
  if byte_to_Z tag <? 253 then byte_to_Z tag else le_decode payload.

(** [canonical v enc]: [enc] is the encoding of [v] in the shortest form
    that holds it. *)
Inductive canonical (v : Z) : bytes -> Prop :=
| canonical_1 tag :
    byte_to_Z tag = v -> v < 253 -> canonical v [tag]
| canonical_253 payload :
    length payload = 2%nat -> le_decode payload = v -> 253 <= v ->
    canonical v (xfd :: payload)
| canonical_254 payload :
    length payload = 4%nat -> le_decode payload = v -> 0x10000 <= v ->
    canonical v (xfe :: payload)
| canonical_255 payload :
    length payload = 8%nat -> le_decode payload = v -> 0x100000000 <= v ->
    canonical v (xff :: payload).

Definition byte_of_Z (z : Z) : byte :=
  match Byte.of_N (Z.to_N (z mod 256)) with
  | Some b => b
  | None => x00
  end.

(** [width] bytes of [z], least significant first. *)
Fixpoint le_encode (width : nat) (z : Z) : bytes :=
  match width with
  | O => []
  | S w => byte_of_Z z :: le_encode w (z / 256)
  end.

(** The shortest encoding of [v]. *)
Definition compact_size_encode (v : Z) : bytes :=
  if v <? 253 then [byte_of_Z v]
  else if v <? 0x10000 then xfd :: le_encode 2 v
  else if v <? 0x100000000 then xfe :: le_encode 4 v
  else xff :: le_encode 8 v.

(** ** What the statements below speak of *)

(** Computations that never raise: the raw reads and what is built from
    them. *)
Definition total {A} (m : M A) : Prop :=
  forall s, exists a s', m s = Ok (a, s').

(** The JoinSplit whose fields are the slices of [l] that the field
    layout gives, from offset [off] on: 1802 bytes in all. *)
Definition JoinSplit_at (l : bytes) (off : nat) : JoinSplit.t :=
  JoinSplit.mk
    (le_decode (slice off 8 l))
    (le_decode (slice (off + 8) 8 l))
    (slice (off + 16) 32 l)
    [slice (off + 48) 32 l; slice (off + 80) 32 l]
    [slice (off + 112) 32 l; slice (off + 144) 32 l]
    (slice (off + 176) 32 l)
    (slice (off + 208) 32 l)
    [slice (off + 240) 32 l; slice (off + 272) 32 l]
    [(slice (off + 304) 1 l, slice (off + 305) 32 l);
     (slice (off + 337) 1 l, slice (off + 338) 32 l);
     (slice (off + 370) 1 l, slice (off + 371) 64 l);
     (slice (off + 435) 1 l, slice (off + 436) 32 l);
     (slice (off + 468) 1 l, slice (off + 469) 32 l);
     (slice (off + 501) 1 l, slice (off + 502) 32 l);
     (slice (off + 534) 1 l, slice (off + 535) 32 l);
     (slice (off + 567) 1 l, slice (off + 568) 32 l)]
    [slice (off + 600) 601 l; slice (off + 1201) 601 l].

(** The numbers of elements and the lengths of the payloads of a
    JoinSplit that was read in full. *)
Definition JoinSplit_full (js : JoinSplit.t) : Prop :=
  length (JoinSplit.anchor js) = 32%nat
  /\ map (@length byte) (JoinSplit.nullifiers js) = [32; 32]%nat
  /\ map (@length byte) (JoinSplit.commitments js) = [32; 32]%nat
  /\ length (JoinSplit.ephemeral_key js) = 32%nat
  /\ length (JoinSplit.random_seed js) = 32%nat
  /\ map (@length byte) (JoinSplit.macs js) = [32; 32]%nat
  /\ map (fun p => (length (fst p), length (snd p))) (JoinSplit.proof js)
     = [(1, 32); (1, 32); (1, 64); (1, 32);
        (1, 32); (1, 32); (1, 32); (1, 32)]%nat
  /\ map (@length byte) (JoinSplit.ciphertexts js) = [601; 601]%nat.

(** The fields of a transaction that come before the join-splits:
    [version], [vin], [vout] and [lock_time], as [Transaction.from_bytes]
    reads them. *)
Definition Transaction_prefix : M (Z * list TxIn.t * list TxOut.t * Z) :=
  b <- read 4 ;; version <- unpack 4 b ;;
  vin <- read_vector TxIn.from_bytes ;;
  vout <- read_vector TxOut.from_bytes ;;
  b <- read 4 ;; locktime <- unpack 4 b ;;
  pure (version, vin, vout, locktime).

(** The loop of [read_blockfile] entered where [l] is what is left of
    the file, with the blocks [ret] read so far. *)
Definition read_from (e : bytes) (ret : list Block.t) (l : bytes)
  : option (result (list Block.t)) :=
  blockfile_loop (S (length l)) e (firstn (length e) l) ret
    (BytesIO_of (skipn (length e) l)).

(** A record of a block file: the magic, the size of the payload on 4
    bytes, the payload. *)
Definition record_bytes (e payload : bytes) : bytes :=
  e ++ le_encode 4 (Z.of_nat (length payload)) ++ payload.

Definition records (e : bytes) (payloads : list bytes) : bytes :=
  concat (map (record_bytes e) payloads).

(** A payload whose length fits the size field and from which
    [Block.from_bytes] decodes [blk], wherever in the payload it stops. *)
Definition decodes_to (payload : bytes) (blk : Block.t) : Prop :=
  Z.of_nat (length payload) < 2 ^ 32
  /\ exists cur, Block.from_bytes (BytesIO_of payload) = Ok (blk, cur).

(** A block with a header of 140 zero bytes, an empty solution and no
    transaction, and its payload of 142 bytes. *)
Definition zero_block : Block.t :=
  Block.mk
    (BlockHeader.mk (repeat x00 4) (repeat x00 32) (repeat x00 32)
       (repeat x00 32) (repeat x00 4) (repeat x00 4) (repeat x00 32) [])
    [].

Definition zero_payload : bytes := repeat x00 142.

(** A file of two records, the first with 4 bytes after the 142 that the
    block decoder takes. *)
Definition slack_file : bytes :=
  [xf9; xbe] ++ [x92; x00; x00; x00] ++ zero_payload ++ [x01; x02; x03; x04]
  ++ record_bytes [xf9; xbe] zero_payload.

(** A transaction of version 2 with no input, no output, one join-split
    of 1802 bytes, a key of 32 bytes and a signature of 64. *)
Definition shielded_tx_bytes : bytes :=
  [x02; x00; x00; x00; x00; x00; x00; x00; x00; x00; x01]
  ++ repeat x11 1802 ++ repeat x22 32 ++ repeat x33 64.

(** A computation that, when it succeeds, has moved the cursor forward
    by at least [lo] bytes, within the bytes that were left, and has
    not touched the buffer. *)
Definition forward (lo : nat) {A} (m : M A) : Prop :=
  forall s a s', m s = Ok (a, s') ->
  exists k, s' = advance s k /\ (lo <= k <= length (remaining s))%nat.

(** The header whose fixed fields are the slices of [l] at the offsets
    of the layout, 140 bytes in all, with the solution [sol]. *)
Definition BlockHeader_at (l : bytes) (sol : bytes) : BlockHeader.t :=
  BlockHeader.mk (slice 0 4 l) (slice 4 32 l) (slice 36 32 l)
    (slice 68 32 l) (slice 100 4 l) (slice 104 4 l) (slice 108 32 l) sol.

(** ** The rendering of an OutPoint *)

Definition hex_digits : list Ascii.ascii :=
  ["0"; "1"; "2"; "3"; "4"; "5"; "6"; "7";
   "8"; "9"; "a"; "b"; "c"; "d"; "e"; "f"]%char.

Definition hex_digit (n : N) : Ascii.ascii := nth (N.to_nat n) hex_digits "0"%char.

(** The characters of [hexlify(b)]: two lowercase hexadecimal digits for
    each byte, the high one first. *)
Fixpoint hexlify (b : bytes) : String.string :=
  match b with
  | [] => String.EmptyString
  | x :: rest =>
      String.String (hex_digit (Byte.to_N x / 16))
        (String.String (hex_digit (Byte.to_N x mod 16)) (hexlify rest))
  end.

(** [str(n)] of an integer. *)
Definition str_int (n : Z) : String.string :=
  DecimalString.NilZero.string_of_int (Z.to_int n).

(** [OutPoint.__repr__]: [hexlify] returns a [bytes] object, which an
    f-string renders as [b'...']; the digits are those of the hash in
    reverse order of its bytes. *)
Definition OutPoint_repr (o : OutPoint.t) : String.string :=
  String.append "b'"%string
    (String.append (hexlify (rev (OutPoint.hash o)))
       (String.append "':"%string (str_int (OutPoint.n o)))).

(** * Properties *)

(** ** Bytes *)

Lemma byte_to_Z_range (b : byte) : 0 <= byte_to_Z b < 256.
Proof.
  unfold byte_to_Z. pose proof (Byte.to_N_bounded b). lia.
Qed.

Lemma byte_to_of_Z (z : Z) : byte_to_Z (byte_of_Z z) = z mod 256.
Proof.
  unfold byte_to_Z, byte_of_Z.
  assert (Hr : 0 <= z mod 256 < 256) by (apply Z.mod_pos_bound; lia).
  destruct (Byte.of_N (Z.to_N (z mod 256))) as [b|] eqn:E.
  - apply Byte.to_of_N in E. rewrite E. lia.
  - apply Byte.of_N_None_iff in E. lia.
Qed.

Lemma le_decode_nonneg (bs : bytes) : 0 <= le_decode bs.
Proof.
  induction bs as [|b bs IH]; cbn [le_decode]; [lia|].
  pose proof (byte_to_Z_range b). lia.
Qed.

Lemma le_decode_bound (bs : bytes) : le_decode bs < 256 ^ Z.of_nat (length bs).
Proof.
  induction bs as [|b bs IH]; [simpl; lia|].
  cbn [le_decode length]. rewrite Nat2Z.inj_succ, Z.pow_succ_r by lia.
  pose proof (byte_to_Z_range b).
  remember (256 ^ Z.of_nat (length bs)) as p. lia.
Qed.

Lemma length_le_encode (w : nat) (z : Z) : length (le_encode w z) = w.
Proof.
  revert z; induction w as [|w IH]; intros z; simpl; [reflexivity|].
  now rewrite IH.
Qed.

Lemma le_decode_encode (w : nat) (z : Z) :
  0 <= z < 256 ^ Z.of_nat w -> le_decode (le_encode w z) = z.
Proof.
  revert z; induction w as [|w IH]; intros z Hz.
  - simpl in *. lia.
  - cbn [le_encode le_decode]. rewrite byte_to_of_Z.
    rewrite Nat2Z.inj_succ, Z.pow_succ_r in Hz by lia.
    remember (256 ^ Z.of_nat w) as p.
    rewrite IH.
    + pose proof (Z.div_mod z 256). lia.
    + split; [apply Z.div_pos; lia|].
      apply Z.div_lt_upper_bound; lia.
Qed.

Lemma bytes_eqb_eq (a b : bytes) : bytes_eqb a b = true <-> a = b.
Proof.
  unfold bytes_eqb. destruct (list_eq_dec _ a b); split; congruence.
Qed.

(** ** Streams *)

Lemma remaining_advance (s : BytesIO) (k : nat) :
  remaining (advance s k) = skipn k (remaining s).
Proof.
  unfold remaining, advance; simpl.
  rewrite skipn_skipn. f_equal. lia.
Qed.

Lemma advance_advance (s : BytesIO) (a b : nat) :
  advance (advance s a) b = advance s (a + b).
Proof.
  unfold advance; simpl. f_equal. lia.
Qed.

Lemma advance_0 (s : BytesIO) : advance s 0 = s.
Proof.
  destruct s as [b p]; unfold advance; simpl. f_equal. lia.
Qed.

(** A read never raises; it returns [min n (what is left)] bytes. *)
Lemma read_spec (n : nat) (s : BytesIO) :
  read n s = Ok (firstn n (remaining s),
                 advance s (Nat.min n (length (remaining s)))).
Proof.
  unfold read. now rewrite length_firstn.
Qed.

Lemma read_inv (n : nat) (s s' : BytesIO) (out : bytes) :
  read n s = Ok (out, s') ->
  out = firstn n (remaining s)
  /\ s' = advance s (Nat.min n (length (remaining s))).
Proof.
  rewrite read_spec. intros H. injection H as <- <-. split; reflexivity.
Qed.

Lemma skipn_min (n : nat) (l : bytes) :
  skipn (Nat.min n (length l)) l = skipn n l.
Proof.
  destruct (Nat.le_ge_cases n (length l)) as [H|H].
  - now rewrite Nat.min_l.
  - rewrite Nat.min_r by assumption. now rewrite !skipn_all2 by lia.
Qed.

(** A read within the buffer, at offset [off] of the cursor [s0]. *)
Lemma read_advance (s0 : BytesIO) (off n : nat) :
  (off + n <= length (remaining s0))%nat ->
  read n (advance s0 off)
  = Ok (slice off n (remaining s0), advance s0 (off + n)).
Proof.
  intros H. rewrite read_spec, remaining_advance, advance_advance.
  unfold slice. rewrite length_skipn. do 3 f_equal. lia.
Qed.

(** A raw read after [off] bytes were asked for, whether they were all
    there or not. *)
Lemma read_at_min (s : BytesIO) (off n : nat) :
  read n (advance s (Nat.min off (length (remaining s))))
  = Ok (slice off n (remaining s),
        advance s (Nat.min (off + n) (length (remaining s)))).
Proof.
  rewrite read_spec, remaining_advance, skipn_min, advance_advance.
  unfold slice. rewrite length_skipn. do 3 f_equal. lia.
Qed.

Lemma advance_min_0 (s : BytesIO) :
  advance s (Nat.min 0 (length (remaining s))) = s.
Proof. cbn [Nat.min]. apply advance_0. Qed.

(** Reading a known prefix of what is left. *)
Lemma read_prefix (s : BytesIO) (a b : bytes) :
  remaining s = a ++ b ->
  read (length a) s = Ok (a, advance s (length a))
  /\ remaining (advance s (length a)) = b.
Proof.
  intros H. rewrite read_spec, remaining_advance, H.
  rewrite firstn_app, firstn_all, Nat.sub_diag, firstn_O, app_nil_r.
  rewrite skipn_app, skipn_all, Nat.sub_diag, skipn_O, length_app.
  split; [do 3 f_equal; lia | reflexivity].
Qed.

Lemma unpack_ok (w : nat) (b : bytes) (s : BytesIO) :
  length b = w -> unpack w b s = Ok (le_decode b, s).
Proof.
  intros H. unfold unpack. now rewrite H, Nat.eqb_refl.
Qed.

Lemma unpack_short (w : nat) (b : bytes) (s : BytesIO) :
  length b <> w -> unpack w b s = Raise StructError.
Proof.
  intros H. unfold unpack. apply Nat.eqb_neq in H. now rewrite H.
Qed.

(** ** The compact-size reader *)

(** The reader on a first byte followed by the payload of its form. *)
Lemma read_compact_size_eval (s : BytesIO) (tag : byte) (payload rest : bytes) :
  remaining s = tag :: payload ++ rest ->
  length payload = payload_width (byte_to_Z tag) ->
  read_compact_size s =
    if (min_value (byte_to_Z tag) <=? raw_value tag payload)
       && (raw_value tag payload <=? MAX_SIZE)
    then Ok (raw_value tag payload, advance s (1 + length payload))
    else Raise AssertionError.
Proof.
  intros H Hw.
  pose proof (byte_to_Z_range tag) as Ht.
  destruct (read_prefix s [tag] (payload ++ rest) H) as [R1 Rem1].
  cbn [length] in R1, Rem1.
  unfold read_compact_size.
  unfold bind at 1. rewrite R1. unfold bind at 1.
  rewrite unpack_ok by reflexivity.
  cbn [le_decode]. rewrite Z.mul_0_r, Z.add_0_r.
  unfold payload_width in Hw. unfold min_value, raw_value.
  destruct (byte_to_Z tag <? 253) eqn:E1.
  { apply length_zero_iff_nil in Hw; subst payload.
    unfold bind, pure, py_assert.
    replace (0 <=? byte_to_Z tag) with true by (symmetry; apply Z.leb_le; lia).
    cbn [andb length]. now destruct (byte_to_Z tag <=? MAX_SIZE). }
  assert (Hbr : forall (w : nat) (lo : Z), length payload = w ->
    (r <- (b <- read w ;; r <- unpack w b ;;
           py_assert (r >=? lo) ;;; pure r) ;;
     py_assert (r <=? MAX_SIZE) ;;; pure r) (advance s 1)
    = if (lo <=? le_decode payload) && (le_decode payload <=? MAX_SIZE)
      then Ok (le_decode payload, advance s (1 + length payload))
      else Raise AssertionError).
  { intros w lo Hl.
    destruct (read_prefix (advance s 1) payload rest Rem1) as [R2 _].
    rewrite Hl in R2. unfold bind. rewrite R2, unpack_ok by assumption.
    unfold py_assert, pure. rewrite Z.geb_leb, advance_advance, Hl.
    destruct (lo <=? le_decode payload); [|reflexivity].
    now destruct (le_decode payload <=? MAX_SIZE). }
  destruct (byte_to_Z tag =? 253) eqn:E2; [now apply Hbr|].
  destruct (byte_to_Z tag =? 254) eqn:E3; now apply Hbr.
Qed.

(** The reader raises [struct.error] on an exhausted stream. *)
Lemma read_compact_size_empty (s : BytesIO) :
  remaining s = [] -> read_compact_size s = Raise StructError.
Proof.
  intros H. unfold read_compact_size. unfold bind at 1. unfold bind at 1.
  rewrite read_spec, H. reflexivity.
Qed.

(** Whatever the reader returns is within the ceiling. *)
Lemma read_compact_size_range (s : BytesIO) (v : Z) (s' : BytesIO) :
  read_compact_size s = Ok (v, s') -> 0 <= v <= MAX_SIZE.
Proof.
  unfold read_compact_size, bind, read, unpack, py_assert, pure.
  intros H.
  repeat match type of H with
         | context [if ?c then _ else _] => destruct c eqn:?; try discriminate
         end;
  injection H as <- _;
  match goal with
  | E : (_ <=? MAX_SIZE) = true |- _ => apply Z.leb_le in E
  end;
  (split; [apply le_decode_nonneg | assumption]).
Qed.

(** C4: every value [read_compact_size] returns lies in [0, 0x02000000];
    an encoding in the 253-form of a value below 253, in the 254-form of a
    value below 65536 or in the 255-form of a value below 4294967296
    raises [AssertionError], and so does an encoding, in any form, of a
    value above 0x02000000. *)
Theorem read_compact_size_rejects :
  (forall s v s', read_compact_size s = Ok (v, s') -> 0 <= v <= MAX_SIZE)
  /\ (forall s payload rest,
        remaining s = xfd :: payload ++ rest -> length payload = 2%nat ->
        le_decode payload < 253 ->
        read_compact_size s = Raise AssertionError)
  /\ (forall s payload rest,
        remaining s = xfe :: payload ++ rest -> length payload = 4%nat ->
        le_decode payload < 65536 ->
        read_compact_size s = Raise AssertionError)
  /\ (forall s payload rest,
        remaining s = xff :: payload ++ rest -> length payload = 8%nat ->
        le_decode payload < 4294967296 ->
        read_compact_size s = Raise AssertionError)
  /\ (forall s tag payload rest,
        remaining s = tag :: payload ++ rest ->
        length payload = payload_width (byte_to_Z tag) ->
        MAX_SIZE < raw_value tag payload ->
        read_compact_size s = Raise AssertionError).
Proof.
  split; [exact read_compact_size_range|].
  assert (Hlow : forall s tag payload rest,
    remaining s = tag :: payload ++ rest ->
    length payload = payload_width (byte_to_Z tag) ->
    raw_value tag payload < min_value (byte_to_Z tag) ->
    read_compact_size s = Raise AssertionError).
  { intros s tag payload rest H Hw Hlt.
    rewrite (read_compact_size_eval s tag payload rest H Hw).
    apply Z.leb_gt in Hlt. now rewrite Hlt. }
  repeat split.
  - intros s payload rest H Hw Hlt.
    apply (Hlow s xfd payload rest H Hw). exact Hlt.
  - intros s payload rest H Hw Hlt.
    apply (Hlow s xfe payload rest H Hw). exact Hlt.
  - intros s payload rest H Hw Hlt.
    apply (Hlow s xff payload rest H Hw). exact Hlt.
  - intros s tag payload rest H Hw Hgt.
    rewrite (read_compact_size_eval s tag payload rest H Hw).
    apply Z.leb_gt in Hgt. rewrite Hgt. now rewrite andb_false_r.
Qed.

(** The three non-canonical encodings of 0 and the first value past the
    ceiling, 0x02000001 in the 254-form, are refused. *)
Lemma read_compact_size_rejects_witness :
  read_compact_size (BytesIO_of [xfd; x00; x00]) = Raise AssertionError
  /\ read_compact_size (BytesIO_of [xfe; x00; x00; x00; x00])
     = Raise AssertionError
  /\ read_compact_size
       (BytesIO_of [xff; x00; x00; x00; x00; x00; x00; x00; x00])
     = Raise AssertionError
  /\ read_compact_size (BytesIO_of [xfe; x01; x00; x00; x02])
     = Raise AssertionError.
Proof.
  destruct read_compact_size_rejects as (_ & H253 & H254 & H255 & Hmax).
  split; [|split; [|split]].
  - apply (H253 _ [x00; x00] []); [reflexivity | reflexivity | reflexivity].
  - apply (H254 _ [x00; x00; x00; x00] []);
      [reflexivity | reflexivity | reflexivity].
  - apply (H255 _ [x00; x00; x00; x00; x00; x00; x00; x00] []);
      [reflexivity | reflexivity | reflexivity].
  - apply (Hmax _ xfe [x01; x00; x00; x02] []);
      [reflexivity | reflexivity | reflexivity].
Defined.

(** Every value below 2^64 has a canonical encoding, the one
    [compact_size_encode] builds. *)
Lemma canonical_encode (v : Z) :
  0 <= v < 2 ^ 64 -> canonical v (compact_size_encode v).
Proof.
  intros Hv. unfold compact_size_encode.
  destruct (v <? 253) eqn:E1.
  { apply Z.ltb_lt in E1. apply canonical_1; [|assumption].
    rewrite byte_to_of_Z. apply Z.mod_small. lia. }
  apply Z.ltb_ge in E1.
  destruct (v <? 0x10000) eqn:E2.
  { apply Z.ltb_lt in E2. apply canonical_253; [apply length_le_encode| |lia].
    apply le_decode_encode. change (256 ^ Z.of_nat 2) with 65536. lia. }
  apply Z.ltb_ge in E2.
  destruct (v <? 0x100000000) eqn:E3.
  { apply Z.ltb_lt in E3. apply canonical_254; [apply length_le_encode| |lia].
    apply le_decode_encode. change (256 ^ Z.of_nat 4) with 4294967296. lia. }
  apply Z.ltb_ge in E3.
  apply canonical_255; [apply length_le_encode| |lia].
  apply le_decode_encode. change (256 ^ Z.of_nat 8) with (2 ^ 64). lia.
Qed.

(** C5: on a canonical encoding [enc] of a value [v] of [0, 0x02000000],
    followed by anything, [read_compact_size] returns [v] and moves the
    cursor past [enc] and no further; [enc] is its first byte [n] alone
    when [n < 253], and then [v] is [n]; it is [n] and 2, 4 or 8 bytes, the
    little-endian value [v], when [n] is 253, 254 or 255. *)
Theorem read_compact_size_canonical
  (v : Z) (enc rest : bytes) (s : BytesIO) :
  canonical v enc -> 0 <= v <= MAX_SIZE -> remaining s = enc ++ rest ->
  read_compact_size s = Ok (v, advance s (length enc))
  /\ exists tag payload,
       enc = tag :: payload
       /\ (byte_to_Z tag < 253 -> payload = [] /\ v = byte_to_Z tag)
       /\ (byte_to_Z tag = 253 ->
           length payload = 2%nat /\ v = le_decode payload)
       /\ (byte_to_Z tag = 254 ->
           length payload = 4%nat /\ v = le_decode payload)
       /\ (byte_to_Z tag = 255 ->
           length payload = 8%nat /\ v = le_decode payload).
Proof.
  intros Hc Hv Hrem. unfold MAX_SIZE in Hv.
  assert (Hgen : forall tag payload,
    enc = tag :: payload ->
    length payload = payload_width (byte_to_Z tag) ->
    raw_value tag payload = v -> min_value (byte_to_Z tag) <= v ->
    read_compact_size s = Ok (v, advance s (length enc))).
  { intros tag payload -> Hw Hraw Hmin. cbn [app] in Hrem.
    rewrite (read_compact_size_eval s tag payload rest Hrem Hw), Hraw.
    replace (min_value (byte_to_Z tag) <=? v) with true
      by (symmetry; apply Z.leb_le; assumption).
    replace (v <=? MAX_SIZE) with true
      by (symmetry; apply Z.leb_le; unfold MAX_SIZE; lia).
    reflexivity. }
  destruct Hc as [tag Ht Hlt | payload Hw Hd Hlo | payload Hw Hd Hlo
                 | payload Hw Hd Hlo].
  - split.
    + apply (Hgen tag []); [reflexivity | | | ];
        unfold payload_width, raw_value, min_value;
        replace (byte_to_Z tag <? 253) with true
          by (symmetry; apply Z.ltb_lt; lia);
        [reflexivity | assumption | lia].
    + exists tag, []. repeat split; try reflexivity; try lia.
  - split.
    + apply (Hgen xfd payload); [reflexivity | exact Hw | exact Hd | exact Hlo].
    + exists xfd, payload. change (byte_to_Z xfd) with 253.
      repeat split; try reflexivity; try lia; try congruence.
  - split.
    + apply (Hgen xfe payload); [reflexivity | exact Hw | exact Hd | exact Hlo].
    + exists xfe, payload. change (byte_to_Z xfe) with 254.
      repeat split; try reflexivity; try lia; try congruence.
  - change 0x100000000 with 4294967296 in Hlo. lia.
Qed.

(** 65536, the least value of the 254-form, read back from its five
    bytes. *)
Lemma read_compact_size_canonical_witness :
  read_compact_size (BytesIO_of [xfe; x00; x00; x01; x00; x07])
  = Ok (65536, advance (BytesIO_of [xfe; x00; x00; x01; x00; x07]) 5).
Proof.
  apply (read_compact_size_canonical 65536 [xfe; x00; x00; x01; x00] [x07]).
  - apply canonical_254; [reflexivity | reflexivity | discriminate].
  - split; discriminate.
  - reflexivity.
Defined.

(** ** The byte-blob reader *)

(** [read_bytes] raises exactly when the compact-size reader does. *)
Lemma read_bytes_raise (s : BytesIO) (e : exn) :
  read_bytes s = Raise e <-> read_compact_size s = Raise e.
Proof.
  unfold read_bytes, bind.
  destruct (read_compact_size s) as [[n s1]|e'].
  - rewrite read_spec. split; discriminate.
  - split; intros H; injection H as ->; reflexivity.
Qed.

(** C1, as the code has it: once the length [n] is decoded, [read_bytes]
    does not raise.  It returns the next [n] bytes and moves the cursor
    by [n] when [n] bytes are left; when fewer are left it returns them
    all, a blob shorter than [n], and leaves the cursor at the end. *)
Theorem read_bytes_after_length (s s1 : BytesIO) (n : Z) :
  read_compact_size s = Ok (n, s1) ->
  exists out s2,
    read_bytes s = Ok (out, s2)
    /\ out = firstn (Z.to_nat n) (remaining s1)
    /\ ((Z.to_nat n <= length (remaining s1))%nat ->
        Z.of_nat (length out) = n /\ s2 = advance s1 (Z.to_nat n))
    /\ ((length (remaining s1) < Z.to_nat n)%nat ->
        out = remaining s1 /\ Z.of_nat (length out) < n
        /\ s2 = advance s1 (length (remaining s1))).
Proof.
  intros H. pose proof (read_compact_size_range s n s1 H) as Hn.
  unfold read_bytes, bind. rewrite H, read_spec.
  eexists; eexists; split; [reflexivity|]. split; [reflexivity|].
  rewrite length_firstn. split; intros Hlen.
  - rewrite Nat.min_l by assumption. split; [lia | reflexivity].
  - rewrite Nat.min_r by lia. rewrite firstn_all2 by lia.
    repeat split; lia.
Qed.

(** A blob of declared length 2 with 3 bytes after the prefix. *)
Lemma read_bytes_after_length_witness :
  exists out s2,
    read_bytes (BytesIO_of [x02; x0a; x0b; x0c]) = Ok (out, s2)
    /\ out = [x0a; x0b]
    /\ s2 = advance (BytesIO_of [x02; x0a; x0b; x0c]) 3.
Proof.
  destruct (read_bytes_after_length
              (BytesIO_of [x02; x0a; x0b; x0c])
              (advance (BytesIO_of [x02; x0a; x0b; x0c]) 1) 2 eq_refl)
    as (out & s2 & R & Hout & Hfull & _).
  exists out, s2. split; [exact R|]. split; [exact Hout|].
  destruct Hfull as [_ ->]; [cbn; lia | reflexivity].
Defined.

(** A length prefix of 5 followed by 2 bytes: [read_bytes] returns the 2
    bytes and does not raise. *)
Lemma read_bytes_short_blob :
  read_compact_size (BytesIO_of [x05; x01; x02])
  = Ok (5, advance (BytesIO_of [x05; x01; x02]) 1)
  /\ length (remaining (advance (BytesIO_of [x05; x01; x02]) 1)) = 2%nat
  /\ read_bytes (BytesIO_of [x05; x01; x02])
     = Ok ([x01; x02], advance (BytesIO_of [x05; x01; x02]) 3).
Proof.
  repeat split.
Qed.

(** ** Fixed layouts *)

Lemma length_slice (off n : nat) (l : bytes) :
  (off + n <= length l)%nat -> length (slice off n l) = n.
Proof.
  intros H. unfold slice. rewrite length_firstn, length_skipn. lia.
Qed.

(** One step of a decoder over a buffer that holds the bytes it asks
    for: the read is a slice at the offset reached, the unpack of a slice
    of the right width succeeds. *)
Ltac read_step :=
  first
    [ rewrite read_advance by lia
    | rewrite unpack_ok by (apply length_slice; lia) ];
  cbv beta iota.

Lemma OutPoint_from_bytes_at (s : BytesIO) (off : nat) :
  (off + 36 <= length (remaining s))%nat ->
  OutPoint.from_bytes (advance s off)
  = Ok (OutPoint.mk (slice off 32 (remaining s))
                    (le_decode (slice (off + 32) 4 (remaining s))),
        advance s (off + 36)).
Proof.
  intros H. unfold OutPoint.from_bytes, bind, pure.
  repeat read_step.
  do 3 f_equal. lia.
Qed.

(** C9: on a buffer with 36 bytes or more at the cursor, of any content,
    [OutPoint.from_bytes] moves the cursor by 36; [hash] is the first 32
    bytes in the order of the buffer, [n] the little-endian value of the
    next 4. *)
Theorem OutPoint_from_bytes_36 (s : BytesIO) :
  (36 <= length (remaining s))%nat ->
  OutPoint.from_bytes s
  = Ok (OutPoint.mk (firstn 32 (remaining s))
                    (le_decode (firstn 4 (skipn 32 (remaining s)))),
        advance s 36).
Proof.
  intros H. rewrite <- (advance_0 s) at 1.
  rewrite OutPoint_from_bytes_at by (cbn; lia). reflexivity.
Qed.

(** 32 bytes of hash, the index 2 and one byte more. *)
Lemma OutPoint_from_bytes_36_witness :
  OutPoint.from_bytes
    (BytesIO_of (repeat x01 32 ++ [x02; x00; x00; x00; xff]))
  = Ok (OutPoint.mk (repeat x01 32) 2,
        advance (BytesIO_of (repeat x01 32 ++ [x02; x00; x00; x00; xff])) 36).
Proof.
  apply (OutPoint_from_bytes_36
           (BytesIO_of (repeat x01 32 ++ [x02; x00; x00; x00; xff]))).
  cbn. lia.
Defined.

(** ** JoinSplit *)

Lemma JoinSplit_from_bytes_at (s : BytesIO) (off : nat) :
  (off + 1802 <= length (remaining s))%nat ->
  JoinSplit.from_bytes (advance s off)
  = Ok (JoinSplit_at (remaining s) off, advance s (off + 1802)).
Proof.
  intros H.
  unfold JoinSplit.from_bytes, JoinSplit.read_pair. cbn [read_elems].
  unfold bind, pure.
  repeat read_step.
  rewrite <- !Nat.add_assoc. cbn [Nat.add].
  reflexivity.
Qed.

Lemma JoinSplit_at_full (l : bytes) (off : nat) :
  (off + 1802 <= length l)%nat -> JoinSplit_full (JoinSplit_at l off).
Proof.
  intros H. unfold JoinSplit_full, JoinSplit_at. cbn [JoinSplit.anchor
    JoinSplit.nullifiers JoinSplit.commitments JoinSplit.ephemeral_key
    JoinSplit.random_seed JoinSplit.macs JoinSplit.proof
    JoinSplit.ciphertexts map fst snd].
  rewrite !length_slice by lia.
  repeat split.
Qed.

(** A computation that succeeds gives a first result on which the rest
    succeeds. *)
Lemma bind_ok {A B} (m : M A) (k : A -> M B) (s s' : BytesIO) (b : B) :
  bind m k s = Ok (b, s') ->
  exists a s1, m s = Ok (a, s1) /\ k a s1 = Ok (b, s').
Proof.
  unfold bind. destruct (m s) as [[a s1]|e]; [|discriminate].
  intros H. exists a, s1. split; [reflexivity | exact H].
Qed.

Ltac bind_inv H :=
  let Hm := fresh "Hm" in
  apply bind_ok in H; destruct H as (? & ? & Hm & H).

Ltac bind_inv_as H a s E :=
  apply bind_ok in H; destruct H as (a & s & E & H).

Lemma read_elems_length {T} (m : M T) (n : nat) :
  forall (s s' : BytesIO) (l : list T),
    read_elems m n s = Ok (l, s') -> length l = n.
Proof.
  induction n as [|n IH]; intros s s' l H; cbn [read_elems] in H.
  - injection H as <- _. reflexivity.
  - bind_inv H. bind_inv H. injection H as <- _.
    cbn [length]. f_equal. eapply IH. eassumption.
Qed.

(** Raw reads never raise, and neither does what is built from them. *)
Lemma total_read (n : nat) : total (read n).
Proof.
  intros s. rewrite read_spec. eexists; eexists; reflexivity.
Qed.

Lemma total_pure {A} (a : A) : total (pure a).
Proof.
  intros s. exists a, s. reflexivity.
Qed.

Lemma total_bind {A B} (m : M A) (k : A -> M B) :
  total m -> (forall a, total (k a)) -> total (bind m k).
Proof.
  intros Hm Hk s. destruct (Hm s) as (a & s1 & E).
  destruct (Hk a s1) as (b & s2 & E'). exists b, s2.
  unfold bind. now rewrite E.
Qed.

Lemma total_read_elems {T} (m : M T) (n : nat) :
  total m -> total (read_elems m n).
Proof.
  intros Hm. induction n as [|n IH]; cbn [read_elems].
  - apply total_pure.
  - apply total_bind; [exact Hm | intros x].
    apply total_bind; [exact IH | intros xs]. apply total_pure.
Qed.

Ltac total_step :=
  lazymatch goal with
  | |- total (bind _ _) => apply total_bind; [|intros ?; cbv beta]
  | |- total (read _) => apply total_read
  | |- total (pure _) => apply total_pure
  | |- total (read_elems _ _) => apply total_read_elems
  end.

(** The numbers of elements of a decoded JoinSplit do not depend on the
    input. *)
Lemma JoinSplit_counts (s s' : BytesIO) (js : JoinSplit.t) :
  JoinSplit.from_bytes s = Ok (js, s') ->
  length (JoinSplit.nullifiers js) = 2%nat
  /\ length (JoinSplit.commitments js) = 2%nat
  /\ length (JoinSplit.macs js) = 2%nat
  /\ length (JoinSplit.proof js) = 8%nat
  /\ length (JoinSplit.ciphertexts js) = 2%nat.
Proof.
  unfold JoinSplit.from_bytes. intros H.
  repeat bind_inv H.
  injection H as <- _.
  repeat match goal with
         | Hm : read_elems _ _ _ = Ok _ |- _ => apply read_elems_length in Hm
         end.
  cbn [JoinSplit.nullifiers JoinSplit.commitments JoinSplit.macs
       JoinSplit.proof JoinSplit.ciphertexts length].
  repeat split; assumption.
Qed.

(** With 16 bytes or more at the cursor the two [unpack] of the decoder
    succeed, and nothing after them can raise. *)
Lemma JoinSplit_from_bytes_16 (s : BytesIO) :
  (16 <= length (remaining s))%nat ->
  exists js s', JoinSplit.from_bytes s = Ok (js, s').
Proof.
  intros H. rewrite <- (advance_0 s).
  unfold JoinSplit.from_bytes.
  unfold bind at 1. rewrite read_advance by lia.
  unfold bind at 1. rewrite unpack_ok by (apply length_slice; lia).
  unfold bind at 1. rewrite read_advance by lia.
  unfold bind at 1. rewrite unpack_ok by (apply length_slice; lia).
  match goal with
  | |- exists js s', ?m ?st = _ => assert (Ht : total m)
  end.
  { unfold JoinSplit.read_pair. repeat total_step. }
  apply Ht.
Qed.

Lemma JoinSplit_from_bytes_short (s : BytesIO) :
  (length (remaining s) < 16)%nat ->
  JoinSplit.from_bytes s = Raise StructError.
Proof.
  intros H. unfold JoinSplit.from_bytes.
  destruct (Nat.lt_ge_cases (length (remaining s)) 8) as [H8|H8].
  - unfold bind at 1. rewrite read_spec. unfold bind at 1.
    rewrite unpack_short; [reflexivity|]. rewrite length_firstn. lia.
  - rewrite <- (advance_0 s).
    unfold bind at 1. rewrite read_advance by lia.
    unfold bind at 1. rewrite unpack_ok by (apply length_slice; lia).
    unfold bind at 1. rewrite read_spec. unfold bind at 1.
    rewrite unpack_short; [reflexivity|].
    rewrite length_firstn, remaining_advance, length_skipn. lia.
Qed.

(** With 16 bytes or more at the cursor every field is the slice of
    the buffer at its offset in the layout, cut where the buffer ends, and
    the cursor stops after 1802 bytes or at the end of the buffer. *)
Lemma JoinSplit_from_bytes_min (s : BytesIO) :
  (16 <= length (remaining s))%nat ->
  JoinSplit.from_bytes s
  = Ok (JoinSplit_at (remaining s) 0,
        advance s (Nat.min 1802 (length (remaining s)))).
Proof.
  intros H. rewrite <- (advance_min_0 s) at 1.
  unfold JoinSplit.from_bytes, JoinSplit.read_pair. cbn [read_elems].
  unfold bind, pure.
  repeat (first [ rewrite read_at_min
                | rewrite unpack_ok by (apply length_slice; lia) ];
          cbv beta iota).
  unfold JoinSplit_at. rewrite <- !Nat.add_assoc. cbn [Nat.add].
  reflexivity.
Qed.

(** C3, as the code has it: with 1802 bytes or more at the cursor,
    [JoinSplit.from_bytes] succeeds and moves the cursor by 1802, and the
    record has the fields of the layout, 2 nullifiers, 2 commitments, 2
    macs, 8 proof pairs of payload lengths 32, 32, 64, 32, 32, 32, 32, 32 and
    2 ciphertexts of 601 bytes, none of these numbers read from the input;
    with fewer than 16 bytes it raises [struct.error]; with 16 bytes or
    more, so also with 16 to 1801, it succeeds: every field is the slice of
    the buffer at its offset in the layout, short or empty where the buffer
    ends before it, the cursor stops at 1802 bytes or at the end of the
    buffer, and the numbers of elements are the same. *)
Theorem JoinSplit_from_bytes_sizes (s : BytesIO) :
  ((1802 <= length (remaining s))%nat ->
   JoinSplit.from_bytes s
   = Ok (JoinSplit_at (remaining s) 0, advance s 1802)
   /\ JoinSplit_full (JoinSplit_at (remaining s) 0))
  /\ ((length (remaining s) < 16)%nat ->
      JoinSplit.from_bytes s = Raise StructError)
  /\ ((16 <= length (remaining s))%nat ->
      JoinSplit.from_bytes s
      = Ok (JoinSplit_at (remaining s) 0,
            advance s (Nat.min 1802 (length (remaining s))))
      /\ length (JoinSplit.nullifiers (JoinSplit_at (remaining s) 0)) = 2%nat
      /\ length (JoinSplit.commitments (JoinSplit_at (remaining s) 0))
         = 2%nat
      /\ length (JoinSplit.macs (JoinSplit_at (remaining s) 0)) = 2%nat
      /\ length (JoinSplit.proof (JoinSplit_at (remaining s) 0)) = 8%nat
      /\ length (JoinSplit.ciphertexts (JoinSplit_at (remaining s) 0))
         = 2%nat).
Proof.
  split; [|split].
  - intros H. split.
    + rewrite <- (advance_0 s) at 1.
      now rewrite JoinSplit_from_bytes_at by (cbn [Nat.add]; lia).
    + apply JoinSplit_at_full. cbn [Nat.add]. lia.
  - apply JoinSplit_from_bytes_short.
  - intros H. split; [now apply JoinSplit_from_bytes_min|].
    repeat split.
Qed.

(** A buffer of 1802 bytes is consumed whole, one of 15 bytes is
    refused, and one of 1801 bytes is consumed whole as well. *)
Lemma JoinSplit_from_bytes_sizes_witness :
  JoinSplit.from_bytes (BytesIO_of (repeat x2a 1802))
  = Ok (JoinSplit_at (repeat x2a 1802) 0,
        advance (BytesIO_of (repeat x2a 1802)) 1802)
  /\ JoinSplit.from_bytes (BytesIO_of (repeat x2a 15)) = Raise StructError
  /\ JoinSplit.from_bytes (BytesIO_of (repeat x2a 1801))
     = Ok (JoinSplit_at (repeat x2a 1801) 0,
           advance (BytesIO_of (repeat x2a 1801)) 1801).
Proof.
  split; [|split].
  - destruct (JoinSplit_from_bytes_sizes (BytesIO_of (repeat x2a 1802)))
      as [Hfull _].
    apply Hfull.
    unfold remaining, BytesIO_of. cbn [pos buf skipn].
    rewrite repeat_length. apply Nat.le_refl.
  - destruct (JoinSplit_from_bytes_sizes (BytesIO_of (repeat x2a 15)))
      as [_ [Hshort _]].
    apply Hshort.
    unfold remaining, BytesIO_of. cbn [pos buf skipn].
    rewrite repeat_length. apply Nat.lt_succ_diag_r.
  - destruct (JoinSplit_from_bytes_sizes (BytesIO_of (repeat x2a 1801)))
      as [_ [_ Hmin]].
    destruct Hmin as [Heq _].
    + unfold remaining, BytesIO_of. cbn [pos buf skipn].
      rewrite repeat_length. lia.
    + exact Heq.
Defined.

(** A buffer of 1801 bytes, one short of a JoinSplit: the decoder
    succeeds, takes the 1801 bytes, and the last ciphertext has 600
    bytes. *)
Lemma JoinSplit_from_bytes_1801 :
  match JoinSplit.from_bytes (BytesIO_of (repeat x00 1801)) with
  | Ok (js, s') =>
      pos s' = 1801%nat
      /\ map (@length byte) (JoinSplit.ciphertexts js) = [601; 600]%nat
  | Raise _ => False
  end.
Proof.
  vm_compute. split; reflexivity.
Qed.

(** ** Transaction *)

(** C6, as the code has it: in a decoded transaction, with [s1] the
    cursor after [lock_time] and [s2] the cursor after the join-splits:
    when [version >= 2] the join-splits are the sequence read at [s1];
    otherwise there are none and no byte is taken for them.  When there
    is a join-split, [joinsplit_pubkey] and [joinsplit_sig] are the raw
    reads of 32 and of 64 bytes at [s2]: 32 and 64 bytes when the buffer
    holds 96 there, and what is left of the buffer, nothing included, when
    it ends earlier.  When there is no join-split both are empty and no
    byte is taken, so a transaction of version 2 without join-splits ends
    at [s2]. *)
Theorem Transaction_joinsplit_fields
  (s s' : BytesIO) (tx : Transaction.t) :
  Transaction.from_bytes s = Ok (tx, s') ->
  exists s1 s2,
    Transaction_prefix s
    = Ok ((Transaction.version tx, Transaction.vin tx,
           Transaction.vout tx, Transaction.lock_time tx), s1)
    /\ (2 <= Transaction.version tx ->
        read_vector JoinSplit.from_bytes s1
        = Ok (Transaction.vjoinsplit tx, s2))
    /\ (Transaction.version tx < 2 ->
        Transaction.vjoinsplit tx = [] /\ s2 = s1)
    /\ (Transaction.vjoinsplit tx <> [] ->
        Transaction.joinsplit_pubkey tx = firstn 32 (remaining s2)
        /\ Transaction.joinsplit_sig tx
           = firstn 64 (skipn 32 (remaining s2))
        /\ s' = advance s2 (Nat.min 96 (length (remaining s2)))
        /\ ((96 <= length (remaining s2))%nat ->
            length (Transaction.joinsplit_pubkey tx) = 32%nat
            /\ length (Transaction.joinsplit_sig tx) = 64%nat))
    /\ (Transaction.vjoinsplit tx = [] ->
        Transaction.joinsplit_pubkey tx = []
        /\ Transaction.joinsplit_sig tx = []
        /\ s' = s2).
Proof.
  unfold Transaction.from_bytes. intros H.
  bind_inv_as H b0 sa E0. bind_inv_as H version sb E1.
  bind_inv_as H vin sc E2. bind_inv_as H vout sd E3.
  bind_inv_as H b1 se E4. bind_inv_as H locktime s1 E5.
  bind_inv_as H joinsplits s2 E6. bind_inv_as H keysig s3 E7.
  injection H as <- <-.
  cbn [Transaction.version Transaction.vin Transaction.vout
       Transaction.lock_time Transaction.vjoinsplit
       Transaction.joinsplit_pubkey Transaction.joinsplit_sig].
  exists s1, s2. split.
  { unfold Transaction_prefix, bind.
    rewrite E0, E1, E2, E3, E4, E5. reflexivity. }
  split; [|split].
  { intros Hv. apply Z.geb_le in Hv. now rewrite Hv in E6. }
  { intros Hv. rewrite Z.geb_leb in E6. apply Z.leb_gt in Hv.
    rewrite Hv in E6. injection E6 as <- <-. split; reflexivity. }
  destruct joinsplits as [|js jss].
  - injection E7 as <- <-. split; [congruence|]. intros _.
    split; [reflexivity|]. split; reflexivity.
  - change (0 <? length (js :: jss))%nat with true in E7.
    bind_inv_as E7 pk sx R1. bind_inv_as E7 sg sy R2.
    injection E7 as <- <-. cbn [fst snd].
    apply read_inv in R1. destruct R1 as [-> ->].
    apply read_inv in R2. destruct R2 as [-> ->].
    rewrite remaining_advance, skipn_min, advance_advance.
    split; [|discriminate]. intros _.
    split; [reflexivity|]. split; [reflexivity|].
    rewrite !length_firstn, !length_skipn.
    split; [f_equal; lia | intros H96; split; lia].
Qed.

(** A transaction of version 2 with no input, no output and no
    join-split, which ends with the count of its join-splits, and the
    transaction [shielded_tx_bytes] with one join-split, whose key and
    signature are the 32 and the 64 bytes after it. *)
Lemma Transaction_joinsplit_fields_witness :
  (exists s1 s2,
     Transaction_prefix
       (BytesIO_of [x02; x00; x00; x00; x00; x00; x00; x00; x00; x00; x00])
     = Ok ((2, [], [], 0), s1)
     /\ read_vector JoinSplit.from_bytes s1 = Ok ([], s2)
     /\ advance
          (BytesIO_of
             [x02; x00; x00; x00; x00; x00; x00; x00; x00; x00; x00])
          11 = s2)
  /\ (exists s1 s2,
        Transaction_prefix (BytesIO_of shielded_tx_bytes)
        = Ok ((2, [], [], 0), s1)
        /\ read_vector JoinSplit.from_bytes s1
           = Ok ([JoinSplit_at shielded_tx_bytes 11], s2)
        /\ repeat x22 32 = firstn 32 (remaining s2)
        /\ repeat x33 64 = firstn 64 (skipn 32 (remaining s2))
        /\ advance (BytesIO_of shielded_tx_bytes) 1909
           = advance s2 (Nat.min 96 (length (remaining s2)))).
Proof.
  split.
  - destruct (Transaction_joinsplit_fields
                (BytesIO_of
                   [x02; x00; x00; x00; x00; x00; x00; x00; x00; x00; x00])
                (advance
                   (BytesIO_of
                      [x02; x00; x00; x00; x00; x00; x00; x00; x00; x00; x00])
                   11)
                (Transaction.mk 2 [] [] 0 [] [] []) eq_refl)
      as (s1 & s2 & Hp & Hv2 & _ & _ & Hnil).
    exists s1, s2. split; [exact Hp|]. split.
    + apply Hv2. discriminate.
    + apply Hnil. reflexivity.
  - destruct (Transaction_joinsplit_fields
                (BytesIO_of shielded_tx_bytes)
                (advance (BytesIO_of shielded_tx_bytes) 1909)
                (Transaction.mk 2 [] [] 0
                   [JoinSplit_at shielded_tx_bytes 11]
                   (repeat x22 32) (repeat x33 64)))
      as (s1 & s2 & Hp & Hv2 & _ & Hsome & _).
    + vm_compute. reflexivity.
    + exists s1, s2. split; [exact Hp|]. split.
      * apply Hv2. discriminate.
      * destruct Hsome as (Hk & Hs & Hend & _); [discriminate|].
        split; [exact Hk|]. split; [exact Hs | exact Hend].
Defined.

(** A transaction of version 2 with one join-split and nothing after
    it: it is decoded, with a join-split and with an empty key and an
    empty signature. *)
Lemma Transaction_joinsplit_without_key :
  match Transaction.from_bytes
          (BytesIO_of
             ([x02; x00; x00; x00; x00; x00; x00; x00; x00; x00; x01]
              ++ repeat x00 1802)) with
  | Ok (tx, _) =>
      length (Transaction.vjoinsplit tx) = 1%nat
      /\ Transaction.joinsplit_pubkey tx = []
      /\ Transaction.joinsplit_sig tx = []
  | Raise _ => False
  end.
Proof.
  vm_compute. repeat split.
Qed.

(** ** The block-file reader *)

(** What a read returns and what it leaves make up what was there. *)
Lemma read_length (n : nat) (s s' : BytesIO) (out : bytes) :
  read n s = Ok (out, s') ->
  (length out + length (remaining s') = length (remaining s))%nat
  /\ out = firstn n (remaining s)
  /\ remaining s' = skipn n (remaining s).
Proof.
  rewrite read_spec. intros H. injection H as <- <-.
  rewrite remaining_advance, skipn_min, length_firstn, length_skipn.
  repeat split. lia.
Qed.

(** Two cursors with the same bytes left read the same and are left with
    the same bytes. *)
Lemma read_remaining (n : nat) (f g : BytesIO) :
  remaining f = remaining g ->
  exists k, read n f = Ok (firstn n (remaining f), advance f k)
            /\ read n g = Ok (firstn n (remaining f), advance g k).
Proof.
  intros H. exists (Nat.min n (length (remaining f))).
  rewrite !read_spec, <- H. split; reflexivity.
Qed.

Lemma advance_remaining (f g : BytesIO) (k : nat) :
  remaining f = remaining g -> remaining (advance f k) = remaining (advance g k).
Proof.
  intros H. now rewrite !remaining_advance, H.
Qed.

(** A turn of the loop depends on the file through the bytes left
    only. *)
Lemma read_record_remaining (e m : bytes) (f g : BytesIO) :
  remaining f = remaining g ->
  match read_record e m f, read_record e m g with
  | Ok ((b1, m1), f'), Ok ((b2, m2), g') =>
      b1 = b2 /\ m1 = m2 /\ remaining f' = remaining g'
  | Raise x, Raise y => x = y
  | _, _ => False
  end.
Proof.
  intros H. unfold read_record, bind, py_assert, pure.
  destruct (bytes_eqb m e); [|reflexivity].
  destruct (read_remaining 4 f g H) as (k1 & -> & ->).
  pose proof (advance_remaining f g k1 H) as H1.
  unfold unpack. destruct (length (firstn 4 (remaining f)) =? 4)%nat;
    [|reflexivity].
  set (size := Z.to_nat (le_decode (firstn 4 (remaining f)))).
  destruct (read_remaining size _ _ H1) as (k2 & -> & ->).
  pose proof (advance_remaining _ _ k2 H1) as H2.
  destruct (Block.from_bytes _) as [[blk cur]|x]; [|reflexivity].
  destruct (read_remaining (length e) _ _ H2) as (k3 & -> & ->).
  pose proof (advance_remaining _ _ k3 H2) as H3.
  rewrite H2. repeat split. exact H3.
Qed.

(** A turn of the loop takes the 4 bytes of the size at least. *)
Lemma read_record_measure (e m : bytes) (f f' : BytesIO)
  (b : Block.t) (m' : bytes) :
  read_record e m f = Ok ((b, m'), f') ->
  (length m' + length (remaining f') < length (remaining f))%nat.
Proof.
  unfold read_record, bind, py_assert, pure, unpack.
  destruct (bytes_eqb m e); [|discriminate].
  destruct (read 4 f) as [[b4 f1]|] eqn:R1; [|discriminate].
  destruct (length b4 =? 4)%nat eqn:E4; [|discriminate].
  destruct (read (Z.to_nat (le_decode b4)) f1) as [[p f2]|] eqn:R2;
    [|discriminate].
  destruct (Block.from_bytes (BytesIO_of p)) as [[blk cur]|]; [|discriminate].
  destruct (read (length e) f2) as [[mg f3]|] eqn:R3; [|discriminate].
  intros H. injection H as <- <- <-.
  apply read_length in R1, R2, R3. apply Nat.eqb_eq in E4. lia.
Qed.

Lemma blockfile_loop_remaining (e : bytes) (fuel : nat) :
  forall (m : bytes) (ret : list Block.t) (f g : BytesIO),
    remaining f = remaining g ->
    blockfile_loop fuel e m ret f = blockfile_loop fuel e m ret g.
Proof.
  induction fuel as [|fuel IH]; intros m ret f g H; [reflexivity|].
  cbn [blockfile_loop]. destruct (0 <? length m)%nat; [|reflexivity].
  pose proof (read_record_remaining e m f g H) as Hr.
  destruct (read_record e m f) as [[[b1 m1] f']|x],
           (read_record e m g) as [[[b2 m2] g']|y]; try contradiction.
  - destruct Hr as (-> & -> & Hr). now apply IH.
  - now subst.
Qed.

(** Fuel above the number of bytes from the magic on is enough, and the
    result does not depend on how much more there is. *)
Lemma blockfile_loop_fuel (e : bytes) (fuel : nat) :
  forall (fuel' : nat) (m : bytes) (ret : list Block.t) (f : BytesIO),
    (length m + length (remaining f) < fuel)%nat ->
    (length m + length (remaining f) < fuel')%nat ->
    blockfile_loop fuel e m ret f = blockfile_loop fuel' e m ret f
    /\ exists r, blockfile_loop fuel e m ret f = Some r.
Proof.
  induction fuel as [|fuel IH]; intros fuel' m ret f H H'; [lia|].
  destruct fuel' as [|fuel']; [lia|].
  cbn [blockfile_loop]. destruct (0 <? length m)%nat eqn:Em.
  - destruct (read_record e m f) as [[[b m1] f1]|x] eqn:R.
    + apply read_record_measure in R. apply Nat.ltb_lt in Em.
      apply IH; lia.
    + split; [reflexivity | eexists; reflexivity].
  - split; [reflexivity | eexists; reflexivity].
Qed.

Lemma firstn_length_app (a b : bytes) : firstn (length a) (a ++ b) = a.
Proof.
  induction a as [|x a IH]; cbn; [reflexivity | now rewrite IH].
Qed.

Lemma skipn_length_app (a b : bytes) : skipn (length a) (a ++ b) = b.
Proof.
  induction a as [|x a IH]; cbn; [reflexivity | exact IH].
Qed.

Lemma remaining_BytesIO_of (l : bytes) : remaining (BytesIO_of l) = l.
Proof. reflexivity. Qed.

Lemma read_blockfile_read_from (file e : bytes) :
  read_blockfile file e = read_from e [] file.
Proof.
  unfold read_blockfile, read_from. rewrite read_spec. cbv beta iota zeta.
  apply blockfile_loop_remaining.
  now rewrite remaining_advance, !remaining_BytesIO_of, skipn_min.
Qed.

(** The loop at a state whose magic and file are those of [l]. *)
Lemma blockfile_loop_read_from
  (e : bytes) (fuel : nat) (m : bytes) (ret : list Block.t)
  (f : BytesIO) (l : bytes) :
  m = firstn (length e) l -> remaining f = skipn (length e) l ->
  (length l < fuel)%nat ->
  blockfile_loop fuel e m ret f = read_from e ret l.
Proof.
  intros -> Hf Hfuel. unfold read_from.
  rewrite (blockfile_loop_remaining e _ _ _ f (BytesIO_of (skipn (length e) l)))
    by (now rewrite remaining_BytesIO_of).
  apply blockfile_loop_fuel;
    rewrite remaining_BytesIO_of, length_firstn, length_skipn; lia.
Qed.

(** X20: [read_blockfile] returns or raises on every file and every
    prefix: each turn of its loop takes bytes of the file, so the loop
    ends. *)
Lemma read_blockfile_total (file e : bytes) :
  exists r, read_blockfile file e = Some r.
Proof.
  rewrite read_blockfile_read_from. unfold read_from.
  apply (blockfile_loop_fuel e (S (length file)) (S (length file)));
    rewrite remaining_BytesIO_of, length_firstn, length_skipn; lia.
Qed.

Lemma read_from_nil (e : bytes) (ret : list Block.t) :
  read_from e ret [] = Some (Ok ret).
Proof.
  unfold read_from. cbn [blockfile_loop length]. now rewrite firstn_nil.
Qed.

Lemma read_from_mismatch (e : bytes) (ret : list Block.t) (l : bytes) :
  firstn (length e) l <> [] -> firstn (length e) l <> e ->
  read_from e ret l = Some (Raise AssertionError).
Proof.
  intros Hne Hneq. unfold read_from. cbn [blockfile_loop].
  destruct (firstn (length e) l) as [|x m] eqn:Em; [congruence|].
  cbn [length Nat.ltb Nat.leb].
  unfold read_record, bind, py_assert.
  destruct (bytes_eqb (x :: m) e) eqn:E; [|reflexivity].
  apply bytes_eqb_eq in E. congruence.
Qed.

Lemma bytes_eqb_refl (e : bytes) : bytes_eqb e e = true.
Proof. now apply bytes_eqb_eq. Qed.

Lemma length_pos (e : bytes) : e <> [] -> (0 <? length e)%nat = true.
Proof.
  destruct e; [congruence | reflexivity].
Qed.

(** The size field cut short after a whole magic. *)
Lemma read_from_short_size (e : bytes) (ret : list Block.t) (tail : bytes) :
  e <> [] -> (length tail < 4)%nat ->
  read_from e ret (e ++ tail) = Some (Raise StructError).
Proof.
  intros He Ht. unfold read_from. cbn [blockfile_loop].
  rewrite firstn_length_app, skipn_length_app, length_pos by assumption.
  unfold read_record, bind, py_assert. rewrite bytes_eqb_refl.
  rewrite read_spec, unpack_short; [reflexivity|].
  rewrite remaining_BytesIO_of, length_firstn. lia.
Qed.

(** A turn of the loop on a whole record. *)
Lemma read_record_full
  (e : bytes) (f : BytesIO) (p rest : bytes) (blk : Block.t) (cur : BytesIO) :
  remaining f = le_encode 4 (Z.of_nat (length p)) ++ p ++ rest ->
  Z.of_nat (length p) < 2 ^ 32 ->
  Block.from_bytes (BytesIO_of p) = Ok (blk, cur) ->
  exists f', read_record e e f = Ok ((blk, firstn (length e) rest), f')
             /\ remaining f' = skipn (length e) rest.
Proof.
  intros Hf Hp Hblk.
  destruct (read_prefix f _ _ Hf) as [R1 Rem1].
  rewrite length_le_encode in R1, Rem1.
  destruct (read_prefix _ _ _ Rem1) as [R2 Rem2].
  unfold read_record, bind, py_assert, pure.
  rewrite bytes_eqb_refl, R1, unpack_ok by apply length_le_encode.
  rewrite le_decode_encode by (change (256 ^ Z.of_nat 4) with (2 ^ 32); lia).
  rewrite Nat2Z.id, R2, Hblk, read_spec.
  eexists. split; [rewrite Rem2; reflexivity|].
  now rewrite remaining_advance, Rem2, skipn_min.
Qed.

Lemma read_from_record
  (e : bytes) (ret : list Block.t) (p rest : bytes) (blk : Block.t) :
  e <> [] -> decodes_to p blk ->
  read_from e ret (record_bytes e p ++ rest) = read_from e (ret ++ [blk]) rest.
Proof.
  intros He (Hp & cur & Hblk). unfold record_bytes.
  rewrite <- !app_assoc. unfold read_from at 1. cbn [blockfile_loop].
  rewrite firstn_length_app, skipn_length_app, length_pos by assumption.
  destruct (read_record_full e (BytesIO_of
              (le_encode 4 (Z.of_nat (length p)) ++ p ++ rest))
              p rest blk cur eq_refl Hp Hblk) as (f' & -> & Hrem).
  apply blockfile_loop_read_from; [reflexivity | exact Hrem |].
  rewrite !length_app. destruct e; [congruence | cbn; lia].
Qed.

Lemma read_from_records (e : bytes) (payloads : list bytes)
  (blks : list Block.t) :
  e <> [] -> Forall2 decodes_to payloads blks ->
  forall (ret : list Block.t) (rest : bytes),
    read_from e ret (records e payloads ++ rest) = read_from e (ret ++ blks) rest.
Proof.
  intros He H. induction H as [|p blk ps bs Hp _ IH]; intros ret rest.
  - now rewrite app_nil_r.
  - unfold records. cbn [map concat]. rewrite <- app_assoc.
    rewrite (read_from_record e ret p _ blk He Hp).
    fold (records e ps). rewrite IH. now rewrite <- app_assoc.
Qed.

(** The payload cut short: the decoder runs on the bytes that are
    there. *)
Lemma read_from_short_payload
  (e : bytes) (ret : list Block.t) (size4 partial : bytes) :
  e <> [] -> length size4 = 4%nat ->
  (length partial < Z.to_nat (le_decode size4))%nat ->
  read_from e ret (e ++ size4 ++ partial)
  = match Block.from_bytes (BytesIO_of partial) with
    | Ok (blk, _) => Some (Ok (ret ++ [blk]))
    | Raise x => Some (Raise x)
    end.
Proof.
  intros He H4 Hshort. unfold read_from. cbn [blockfile_loop].
  rewrite firstn_length_app, skipn_length_app, length_pos by assumption.
  destruct (read_prefix (BytesIO_of (size4 ++ partial)) size4 partial eq_refl)
    as [R1 Rem1].
  rewrite H4 in R1, Rem1.
  unfold read_record, bind, py_assert, pure.
  rewrite bytes_eqb_refl, R1, unpack_ok by assumption.
  rewrite read_spec, Rem1, firstn_all2 by lia.
  destruct (Block.from_bytes (BytesIO_of partial)) as [[blk cur]|x];
    [|reflexivity].
  rewrite read_spec, remaining_advance, Rem1, skipn_min, skipn_all2 by lia.
  rewrite firstn_nil, !length_app, H4.
  destruct e as [|x e]; [congruence|]. reflexivity.
Qed.

Lemma zero_payload_decodes : decodes_to zero_payload zero_block.
Proof.
  split; [reflexivity|].
  exists (advance (BytesIO_of zero_payload) 142). reflexivity.
Defined.

(** C2, as the code has it: at a record position, after the records read
    so far, a size field cut short after a whole magic raises
    [struct.error], and no block is returned; so does a file that ends
    right after the magic.  A payload cut short does not raise by itself:
    [Block.from_bytes] is run on the bytes that are there, and the read
    returns the blocks when it decodes one and raises when it raises. *)
Theorem read_blockfile_truncated
  (e : bytes) (payloads : list bytes) (blks : list Block.t) :
  e <> [] -> Forall2 decodes_to payloads blks ->
  (forall tail, (length tail < 4)%nat ->
     read_blockfile (records e payloads ++ e ++ tail) e
     = Some (Raise StructError))
  /\ (forall size4 partial,
        length size4 = 4%nat ->
        (length partial < Z.to_nat (le_decode size4))%nat ->
        read_blockfile (records e payloads ++ e ++ size4 ++ partial) e
        = match Block.from_bytes (BytesIO_of partial) with
          | Ok (blk, _) => Some (Ok (blks ++ [blk]))
          | Raise x => Some (Raise x)
          end).
Proof.
  intros He Hrec. split.
  - intros tail Ht.
    rewrite read_blockfile_read_from, (read_from_records e _ _ He Hrec).
    now apply read_from_short_size.
  - intros size4 partial H4 Hshort.
    rewrite read_blockfile_read_from, (read_from_records e _ _ He Hrec).
    now apply read_from_short_payload.
Qed.

(** One whole record, then a magic and the end of the file. *)
Lemma read_blockfile_truncated_witness :
  read_blockfile
    (records [xf9; xbe] [zero_payload] ++ [xf9; xbe] ++ []) [xf9; xbe]
  = Some (Raise StructError).
Proof.
  destruct (read_blockfile_truncated [xf9; xbe] [zero_payload] [zero_block])
    as [Hsize _].
  - discriminate.
  - constructor; [exact zero_payload_decodes | constructor].
  - apply Hsize. cbn. lia.
Defined.

(** A record that declares 143 bytes of payload in a file that ends after
    142 of them: the block is decoded from the 142 bytes and the read
    returns it. *)
Lemma read_blockfile_short_payload_ok :
  le_decode [x8f; x00; x00; x00] = 143
  /\ length zero_payload = 142%nat
  /\ read_blockfile ([xf9; xbe] ++ [x8f; x00; x00; x00] ++ zero_payload)
       [xf9; xbe]
     = Some (Ok [zero_block]).
Proof.
  split; [reflexivity|]. split; [reflexivity|]. vm_compute. reflexivity.
Qed.

(** C8: after any number of whole records, bytes that are there where
    the magic is expected and are not the expected prefix, a part of it at
    the end of the file included, raise [AssertionError]: the blocks
    decoded before are not returned.  The end of the file there stops the
    read, which returns the blocks of the records, in their order. *)
Theorem read_blockfile_magic
  (e : bytes) (payloads : list bytes) (blks : list Block.t) :
  e <> [] -> Forall2 decodes_to payloads blks ->
  (forall tail,
     firstn (length e) tail <> [] -> firstn (length e) tail <> e ->
     read_blockfile (records e payloads ++ tail) e
     = Some (Raise AssertionError))
  /\ read_blockfile (records e payloads) e = Some (Ok blks).
Proof.
  intros He Hrec. split.
  - intros tail Hne Hneq.
    rewrite read_blockfile_read_from, (read_from_records e _ _ He Hrec).
    now apply read_from_mismatch.
  - rewrite <- (app_nil_r (records e payloads)).
    rewrite read_blockfile_read_from, (read_from_records e _ _ He Hrec).
    apply read_from_nil.
Qed.

(** One whole record and the first byte of a magic; two whole
    records. *)
Lemma read_blockfile_magic_witness :
  read_blockfile (records [xf9; xbe] [zero_payload] ++ [xf9]) [xf9; xbe]
  = Some (Raise AssertionError)
  /\ read_blockfile (records [xf9; xbe] [zero_payload; zero_payload])
       [xf9; xbe]
     = Some (Ok [zero_block; zero_block]).
Proof.
  split.
  - destruct (read_blockfile_magic [xf9; xbe] [zero_payload] [zero_block])
      as [Hbad _].
    + discriminate.
    + constructor; [exact zero_payload_decodes | constructor].
    + apply Hbad; discriminate.
  - destruct (read_blockfile_magic [xf9; xbe] [zero_payload; zero_payload]
                [zero_block; zero_block]) as [_ Hend].
    + discriminate.
    + constructor; [exact zero_payload_decodes|].
      constructor; [exact zero_payload_decodes | constructor].
    + exact Hend.
Defined.

(** C10: with an empty expected prefix [read_blockfile] returns no block
    and does not raise, whatever the file holds: the first read asks for
    0 bytes, and the loop is not entered. *)
Theorem read_blockfile_empty_prefix (file : bytes) :
  read_blockfile file [] = Some (Ok []).
Proof.
  unfold read_blockfile. rewrite read_spec. reflexivity.
Qed.

(** The blocks read so far are carried along by the loop and do not
    change what it does. *)
Lemma blockfile_loop_acc (e : bytes) (fuel : nat) :
  forall (m : bytes) (ret : list Block.t) (f : BytesIO),
    blockfile_loop fuel e m ret f
    = match blockfile_loop fuel e m [] f with
      | Some (Ok bs) => Some (Ok (ret ++ bs))
      | other => other
      end.
Proof.
  induction fuel as [|fuel IH]; intros m ret f; cbn [blockfile_loop];
    [reflexivity|].
  destruct (0 <? length m)%nat; [|now rewrite app_nil_r].
  destruct (read_record e m f) as [[[b m1] f1]|x]; [|reflexivity].
  rewrite (IH m1 (ret ++ [b]) f1), (IH m1 ([] ++ [b]) f1).
  destruct (blockfile_loop fuel e m1 [] f1) as [[bs|x]|]; try reflexivity.
  now rewrite <- app_assoc.
Qed.

Lemma read_from_acc (e : bytes) (ret : list Block.t) (l : bytes) :
  read_from e ret l
  = match read_from e [] l with
    | Some (Ok bs) => Some (Ok (ret ++ bs))
    | other => other
    end.
Proof.
  unfold read_from. apply blockfile_loop_acc.
Qed.

(** C7: in a file with a non-empty magic, after any number of whole
    records, a record of [length e + 4 + length p] bytes whose payload [p]
    of the declared size is decoded to [blk], wherever in [p] the block
    decoder stopped ([cur] is any cursor, the bytes of [p] after it are not
    looked at again), is followed by the reading of the rest of the file
    as a block file of its own: the next magic is looked for at the first
    byte after the [size] bytes of the payload.  [read_blockfile] returns
    the blocks of the records, [blk], and the blocks of the rest, or fails
    as the reading of the rest fails. *)
Theorem read_blockfile_next_record
  (e : bytes) (payloads : list bytes) (blks : list Block.t)
  (p rest : bytes) (blk : Block.t) (cur : BytesIO) :
  e <> [] -> Forall2 decodes_to payloads blks ->
  Z.of_nat (length p) < 2 ^ 32 ->
  Block.from_bytes (BytesIO_of p) = Ok (blk, cur) ->
  length (record_bytes e p) = (length e + 4 + length p)%nat
  /\ read_blockfile (records e payloads ++ record_bytes e p ++ rest) e
     = match read_blockfile rest e with
       | Some (Ok bs) => Some (Ok (blks ++ blk :: bs))
       | other => other
       end.
Proof.
  intros He Hrec Hp Hblk. split.
  - unfold record_bytes. rewrite !length_app, length_le_encode. lia.
  - rewrite !read_blockfile_read_from, (read_from_records e _ _ He Hrec).
    rewrite (read_from_record e ([] ++ blks) p rest blk He
               (conj Hp (ex_intro _ cur Hblk))).
    rewrite read_from_acc.
    destruct (read_from e [] rest) as [[bs|x]|]; try reflexivity.
    cbn [app]. now rewrite <- app_assoc.
Qed.

(** A record of 146 bytes of payload, of which the block decoder takes
    142, followed by a whole record: both blocks are read. *)
Lemma read_blockfile_next_record_witness :
  read_blockfile
    (records [xf9; xbe] []
     ++ record_bytes [xf9; xbe] (zero_payload ++ [x01; x02; x03; x04])
     ++ record_bytes [xf9; xbe] zero_payload) [xf9; xbe]
  = Some (Ok [zero_block; zero_block]).
Proof.
  destruct (read_blockfile_next_record [xf9; xbe] [] []
              (zero_payload ++ [x01; x02; x03; x04])
              (record_bytes [xf9; xbe] zero_payload) zero_block
              (advance
                 (BytesIO_of (zero_payload ++ [x01; x02; x03; x04])) 142))
    as [_ H].
  - discriminate.
  - constructor.
  - reflexivity.
  - reflexivity.
  - exact H.
Defined.

(** One turn of the loop, by offsets: where the file holds, from the
    offset of [f0] on, the magic, a size field that declares [size] and
    [size] bytes of payload from which a block is decoded, the turn
    returns that block, wherever the block decoder stopped in the payload,
    and the next magic it reads is the bytes at the offset of [f0] plus
    the length of the magic plus 4 plus [size]. *)
Lemma read_record_next_magic
  (e : bytes) (f0 : BytesIO) (size : nat) (blk : Block.t) (cur : BytesIO) :
  firstn (length e) (remaining f0) = e ->
  (length e + 4 + size <= length (remaining f0))%nat ->
  le_decode (slice (length e) 4 (remaining f0)) = Z.of_nat size ->
  Block.from_bytes (BytesIO_of (slice (length e + 4) size (remaining f0)))
  = Ok (blk, cur) ->
  read (length e) f0 = Ok (e, advance f0 (length e))
  /\ exists magic',
       magic' = slice (length e + 4 + size) (length e) (remaining f0)
       /\ read_record e e (advance f0 (length e))
          = Ok ((blk, magic'),
                advance f0 (length e + 4 + size + length magic')).
Proof.
  intros Hm Hlen Hsize Hblk. split.
  - rewrite <- (advance_0 f0) at 1. rewrite read_advance by lia.
    unfold slice. cbn [skipn Nat.add]. now rewrite Hm.
  - eexists. split; [reflexivity|].
    unfold read_record, bind, py_assert, pure.
    rewrite bytes_eqb_refl.
    rewrite read_advance by lia.
    rewrite unpack_ok by (apply length_slice; lia).
    rewrite Hsize, Nat2Z.id. rewrite read_advance by lia.
    rewrite Hblk, read_spec, remaining_advance, advance_advance.
    unfold slice. rewrite length_firstn. reflexivity.
Qed.

(** The first record of [slack_file]: the decoder stops at 142 of the
    146 bytes of the payload, and the next magic is read at offset
    2 + 4 + 146. *)
Lemma read_record_next_magic_witness :
  read_record [xf9; xbe] [xf9; xbe] (advance (BytesIO_of slack_file) 2)
  = Ok ((zero_block, [xf9; xbe]), advance (BytesIO_of slack_file) 154).
Proof.
  destruct (read_record_next_magic [xf9; xbe] (BytesIO_of slack_file) 146
              zero_block
              (advance
                 (BytesIO_of (zero_payload ++ [x01; x02; x03; x04])) 142))
    as [_ (m & Hm & R)].
  - reflexivity.
  - cbn. lia.
  - reflexivity.
  - reflexivity.
  - rewrite Hm in R. exact R.
Defined.

(** The two blocks of [slack_file] are read. *)
Example read_blockfile_slack_file :
  read_blockfile slack_file [xf9; xbe] = Some (Ok [zero_block; zero_block]).
Proof.
  vm_compute. reflexivity.
Qed.

(** ** More on the compact-size reader *)

Lemma byte_to_Z_inj (a b : byte) : byte_to_Z a = byte_to_Z b -> a = b.
Proof.
  unfold byte_to_Z. intros H. apply N2Z.inj in H.
  pose proof (Byte.of_to_N a) as Ha. rewrite H, Byte.of_to_N in Ha.
  congruence.
Qed.

Lemma payload_width_cases (n : Z) :
  (n < 253 /\ payload_width n = 0%nat)
  \/ (n = 253 /\ payload_width n = 2%nat)
  \/ (n = 254 /\ payload_width n = 4%nat)
  \/ (254 < n /\ payload_width n = 8%nat).
Proof.
  unfold payload_width.
  destruct (n <? 253) eqn:E1; [apply Z.ltb_lt in E1; auto|].
  apply Z.ltb_ge in E1.
  destruct (n =? 253) eqn:E2; [apply Z.eqb_eq in E2; auto|].
  apply Z.eqb_neq in E2.
  destruct (n =? 254) eqn:E3; [apply Z.eqb_eq in E3; auto|].
  apply Z.eqb_neq in E3. right; right; right. split; [lia | reflexivity].
Qed.

(** The stream ends inside the encoding. *)
Lemma read_compact_size_cut (s : BytesIO) (tag : byte) (payload : bytes) :
  remaining s = tag :: payload ->
  (length payload < payload_width (byte_to_Z tag))%nat ->
  read_compact_size s = Raise StructError.
Proof.
  intros H Hw.
  destruct (read_prefix s [tag] payload H) as [R1 Rem1].
  cbn [length] in R1, Rem1.
  unfold read_compact_size.
  unfold bind at 1. rewrite R1. unfold bind at 1.
  rewrite unpack_ok by reflexivity.
  cbn [le_decode]. rewrite Z.mul_0_r, Z.add_0_r.
  assert (Hbr : forall (w : nat) (lo : Z), (length payload < w)%nat ->
    (r <- (b <- read w ;; r <- unpack w b ;;
           py_assert (r >=? lo) ;;; pure r) ;;
     py_assert (r <=? MAX_SIZE) ;;; pure r) (advance s 1)
    = Raise StructError).
  { intros w lo Hl. unfold bind.
    rewrite read_spec, unpack_short; [reflexivity|].
    rewrite length_firstn, Rem1. lia. }
  unfold payload_width in Hw.
  destruct (byte_to_Z tag <? 253); [cbn in Hw; lia|].
  destruct (byte_to_Z tag =? 253); [now apply Hbr|].
  destruct (byte_to_Z tag =? 254); now apply Hbr.
Qed.

(** X1: on a stream that ends before the encoding is complete, no byte
    left or a first byte with fewer bytes after it than its form asks
    for, [read_compact_size] raises [struct.error]. *)
Theorem read_compact_size_truncated (s : BytesIO) :
  (length (remaining s) < 1 + payload_width
     (byte_to_Z (hd x00 (remaining s))))%nat ->
  read_compact_size s = Raise StructError.
Proof.
  intros H. destruct (remaining s) as [|tag payload] eqn:E.
  - now apply read_compact_size_empty.
  - apply (read_compact_size_cut s tag payload E). cbn [hd length] in H. lia.
Qed.

Lemma read_compact_size_truncated_witness :
  read_compact_size (BytesIO_of [xfe; x00; x00; x01]) = Raise StructError.
Proof.
  apply read_compact_size_truncated. cbn. lia.
Defined.

(** X2: the 255-form is never accepted: [read_compact_size] raises on
    every stream whose first byte is 255, [struct.error] when fewer than
    8 bytes follow and [AssertionError] otherwise, since a value that
    passes the lower bound of the form is above the ceiling. *)
Theorem read_compact_size_255 (s : BytesIO) (rest : bytes) :
  remaining s = xff :: rest ->
  read_compact_size s
  = Raise (if (length rest <? 8)%nat then StructError else AssertionError).
Proof.
  intros H. destruct (length rest <? 8)%nat eqn:E.
  - apply Nat.ltb_lt in E.
    apply (read_compact_size_cut s xff rest H). exact E.
  - apply Nat.ltb_ge in E.
    rewrite <- (firstn_skipn 8 rest) in H.
    rewrite (read_compact_size_eval s xff _ _ H)
      by (change (payload_width (byte_to_Z xff)) with 8%nat;
          rewrite length_firstn; lia).
    unfold raw_value, min_value. change (byte_to_Z xff) with 255.
    cbn [Z.ltb Z.eqb Z.compare Pos.compare Pos.compare_cont Pos.eqb].
    destruct (0x100000000 <=? le_decode (firstn 8 rest)) eqn:E1;
      [|reflexivity].
    apply Z.leb_le in E1.
    replace (le_decode (firstn 8 rest) <=? MAX_SIZE) with false;
      [reflexivity|].
    symmetry. apply Z.leb_gt. unfold MAX_SIZE. lia.
Qed.

Lemma read_compact_size_255_witness :
  read_compact_size
    (BytesIO_of [xff; x00; x00; x00; x00; x01; x00; x00; x00])
  = Raise AssertionError.
Proof.
  apply (read_compact_size_255 _ [x00; x00; x00; x00; x01; x00; x00; x00]).
  reflexivity.
Defined.

(** X3: [read_compact_size] accepts canonical encodings only: when it
    returns [v], the bytes it took are a canonical encoding of [v], of 1,
    3 or 5 bytes. *)
Theorem read_compact_size_ok_canonical (s s' : BytesIO) (v : Z) :
  read_compact_size s = Ok (v, s') ->
  exists enc rest,
    remaining s = enc ++ rest /\ canonical v enc
    /\ s' = advance s (length enc) /\ (1 <= length enc <= 5)%nat.
Proof.
  intros H.
  destruct (remaining s) as [|tag l] eqn:E.
  { rewrite read_compact_size_empty in H by assumption. discriminate. }
  destruct (Nat.lt_ge_cases (length l) (payload_width (byte_to_Z tag)))
    as [Hlt|Hge].
  { rewrite (read_compact_size_cut s tag l E Hlt) in H. discriminate. }
  set (w := payload_width (byte_to_Z tag)) in *.
  assert (Hw : length (firstn w l) = w) by (rewrite length_firstn; lia).
  rewrite <- (firstn_skipn w l) in E.
  rewrite (read_compact_size_eval s tag _ _ E Hw) in H.
  destruct (min_value (byte_to_Z tag) <=? raw_value tag (firstn w l)) eqn:Elo;
    [|discriminate].
  destruct (raw_value tag (firstn w l) <=? MAX_SIZE) eqn:Ehi; [|discriminate].
  cbn [andb] in H. injection H as Hv Hs'.
  apply Z.leb_le in Elo, Ehi. unfold MAX_SIZE in Ehi.
  exists (tag :: firstn w l), (skipn w l).
  split; [cbn [app]; now rewrite firstn_skipn|].
  cbn [length]. rewrite Hw in Hs' |- *.
  split; [|split; [now rewrite <- Hs'|]].
  - pose proof (byte_to_Z_range tag) as Ht.
    unfold raw_value, min_value in *. subst w.
    destruct (payload_width_cases (byte_to_Z tag))
      as [[Hn Hpw]|[[Hn Hpw]|[[Hn Hpw]|[Hn Hpw]]]]; rewrite Hpw in *.
    + apply length_zero_iff_nil in Hw. rewrite Hw.
      replace (byte_to_Z tag <? 253) with true in Hv
        by (symmetry; apply Z.ltb_lt; lia).
      apply canonical_1; [exact Hv | lia].
    + replace tag with xfd by (apply byte_to_Z_inj; rewrite Hn; reflexivity).
      rewrite Hn in *. cbn in Hv, Elo.
      apply canonical_253; [exact Hw | exact Hv | lia].
    + replace tag with xfe by (apply byte_to_Z_inj; rewrite Hn; reflexivity).
      rewrite Hn in *. cbn in Hv, Elo.
      apply canonical_254; [exact Hw | exact Hv | lia].
    + assert (Hff : byte_to_Z tag = 255) by lia. rewrite Hff in *.
      cbn in Elo, Ehi. lia.
  - subst w. destruct (payload_width_cases (byte_to_Z tag))
      as [[Hn Hpw]|[[Hn Hpw]|[[Hn Hpw]|[Hn Hpw]]]]; rewrite Hpw in *;
      try lia.
    pose proof (byte_to_Z_range tag) as Ht.
    assert (Hff : byte_to_Z tag = 255) by lia.
    unfold raw_value, min_value in *. rewrite Hff in *.
    cbn in Elo, Ehi. lia.
Qed.

Lemma read_compact_size_ok_canonical_witness :
  exists enc rest,
    [xfd; x00; x01; x09] = enc ++ rest /\ canonical 256 enc
    /\ advance (BytesIO_of [xfd; x00; x01; x09]) 3
       = advance (BytesIO_of [xfd; x00; x01; x09]) (length enc)
    /\ (1 <= length enc <= 5)%nat.
Proof.
  exact (read_compact_size_ok_canonical
           (BytesIO_of [xfd; x00; x01; x09])
           (advance (BytesIO_of [xfd; x00; x01; x09]) 3) 256 eq_refl).
Defined.

(** ** Forward-only cursors *)

Lemma forward_weaken {A} (lo lo' : nat) (m : M A) :
  (lo' <= lo)%nat -> forward lo m -> forward lo' m.
Proof.
  intros Hle Hm s a s' H. destruct (Hm s a s' H) as (k & -> & Hk).
  exists k. split; [reflexivity | lia].
Qed.

Lemma forward_pure {A} (a : A) : forward 0 (pure a).
Proof.
  intros s a' s' H. injection H as _ <-. exists 0%nat.
  split; [now rewrite advance_0 | lia].
Qed.

Lemma forward_py_assert (c : bool) : forward 0 (py_assert c).
Proof.
  intros s a s' H. unfold py_assert in H. destruct c; [|discriminate].
  injection H as _ <-. exists 0%nat. split; [now rewrite advance_0 | lia].
Qed.

Lemma forward_read (n : nat) : forward 0 (read n).
Proof.
  intros s a s' H. apply read_inv in H. destruct H as [_ ->].
  eexists. split; [reflexivity | lia].
Qed.

Lemma forward_bind {A B} (lo1 lo2 : nat) (m : M A) (k : A -> M B) :
  forward lo1 m -> (forall a, forward lo2 (k a)) ->
  forward (lo1 + lo2) (bind m k).
Proof.
  intros Hm Hk s b s' H. bind_inv_as H a s1 E.
  destruct (Hm s a s1 E) as (k1 & -> & Hk1).
  destruct (Hk a _ b s' H) as (k2 & -> & Hk2).
  rewrite remaining_advance, length_skipn in Hk2.
  exists (k1 + k2)%nat. split; [apply advance_advance | lia].
Qed.

(** [unpack(fmt, stream.read(w))] that succeeds has taken [w] bytes. *)
Lemma forward_read_unpack {B} (w lo : nat) (k : Z -> M B) :
  (forall v, forward lo (k v)) ->
  forward (w + lo) (b <- read w ;; v <- unpack w b ;; k v).
Proof.
  intros Hk s b s' H. bind_inv_as H bs s1 R. bind_inv_as H v s2 U.
  apply read_inv in R. destruct R as [-> ->].
  unfold unpack in U.
  destruct (length (firstn w (remaining s)) =? w)%nat eqn:E; [|discriminate].
  injection U as _ <-. apply Nat.eqb_eq in E. rewrite length_firstn in E.
  destruct (Hk v _ b s' H) as (k2 & -> & Hk2).
  rewrite remaining_advance, length_skipn in Hk2.
  eexists. split; [apply advance_advance | lia].
Qed.

(** A raw read followed by a computation that takes a byte or more was
    not cut short. *)
Lemma forward_read_then {B} (n lo : nat) (k : bytes -> M B) :
  (0 < lo)%nat -> (forall a, forward lo (k a)) ->
  forward (n + lo) (bind (read n) k).
Proof.
  intros Hlo Hk s b s' H. bind_inv_as H bs s1 R.
  apply read_inv in R. destruct R as [-> ->].
  destruct (Hk _ _ b s' H) as (k2 & -> & Hk2).
  rewrite remaining_advance, length_skipn in Hk2.
  eexists. split; [apply advance_advance | lia].
Qed.

Lemma forward_read_elems {T} (lo : nat) (m : M T) (n : nat) :
  forward lo m -> forward 0 (read_elems m n).
Proof.
  intros Hm. induction n as [|n IH]; cbn [read_elems].
  - apply forward_pure.
  - apply (forward_weaken (lo + (0 + 0))); [lia|].
    apply forward_bind; [exact Hm | intros x].
    apply forward_bind; [exact IH | intros xs]. apply forward_pure.
Qed.

Lemma forward_read_compact_size : forward 1 read_compact_size.
Proof.
  unfold read_compact_size.
  apply (forward_read_unpack 1 0). intros n.
  apply (forward_bind 0 0); [|intros r; apply (forward_bind 0 0);
    [apply forward_py_assert | intros _; apply forward_pure]].
  destruct (n <? 253); [apply forward_pure|].
  assert (Hbr : forall w lo,
    forward 0 (b <- read w ;; r <- unpack w b ;;
               py_assert (r >=? lo) ;;; pure r)).
  { intros w lo. apply (forward_weaken (w + (0 + 0))); [lia|].
    apply forward_read_unpack. intros r.
    apply forward_bind; [apply forward_py_assert | intros _].
    apply forward_pure. }
  destruct (n =? 253); [apply Hbr|].
  destruct (n =? 254); apply Hbr.
Qed.

Lemma forward_read_vector {T} (lo : nat) (m : M T) :
  forward lo m -> forward 1 (read_vector m).
Proof.
  intros Hm. unfold read_vector.
  apply (forward_bind 1 0); [apply forward_read_compact_size | intros n].
  now apply (forward_read_elems lo).
Qed.

Lemma forward_read_bytes : forward 1 read_bytes.
Proof.
  unfold read_bytes.
  apply (forward_bind 1 0); [apply forward_read_compact_size | intros n].
  apply forward_read.
Qed.

Lemma forward_OutPoint : forward 36 OutPoint.from_bytes.
Proof.
  unfold OutPoint.from_bytes.
  apply (forward_read_then 32 4); [lia | intros hash].
  apply (forward_read_unpack 4 0). intros n. apply forward_pure.
Qed.

Lemma forward_TxIn : forward 41 TxIn.from_bytes.
Proof.
  unfold TxIn.from_bytes.
  apply (forward_bind 36 5); [apply forward_OutPoint | intros prevout].
  apply (forward_bind 1 4); [apply forward_read_bytes | intros sig].
  apply (forward_read_unpack 4 0). intros n. apply forward_pure.
Qed.

Lemma forward_TxOut : forward 9 TxOut.from_bytes.
Proof.
  unfold TxOut.from_bytes.
  apply (forward_read_unpack 8 1). intros value.
  apply (forward_bind 1 0); [apply forward_read_bytes | intros pubkey].
  apply forward_pure.
Qed.

Ltac forward_raw :=
  lazymatch goal with
  | |- forward _ (bind (read _) _) =>
      apply (forward_bind 0 0); [apply forward_read | intros ?]
  | |- forward _ (bind (read_elems (read _) _) _) =>
      apply (forward_bind 0 0);
      [apply (forward_read_elems 0); apply forward_read | intros ?]
  | |- forward _ (bind (JoinSplit.read_pair _) _) =>
      apply (forward_bind 0 0);
      [unfold JoinSplit.read_pair;
       apply (forward_bind 0 0); [apply forward_read | intros ?];
       apply (forward_bind 0 0); [apply forward_read | intros ?];
       apply forward_pure
      | intros ?]
  | |- forward _ (pure _) => apply forward_pure
  end.

Lemma forward_JoinSplit : forward 16 JoinSplit.from_bytes.
Proof.
  unfold JoinSplit.from_bytes.
  apply (forward_read_unpack 8 8). intros vpub_old.
  apply (forward_read_unpack 8 0). intros vpub_new.
  repeat forward_raw.
Qed.

Lemma forward_Transaction : forward 10 Transaction.from_bytes.
Proof.
  unfold Transaction.from_bytes.
  apply (forward_read_unpack 4 6). intros version.
  apply (forward_bind 1 5);
    [apply (forward_read_vector 41), forward_TxIn | intros vin].
  apply (forward_bind 1 4);
    [apply (forward_read_vector 9), forward_TxOut | intros vout].
  apply (forward_read_unpack 4 0). intros locktime.
  apply (forward_bind 0 0).
  { destruct (version >=? 2); [|apply forward_pure].
    apply (forward_weaken 1); [lia|].
    apply (forward_read_vector 16), forward_JoinSplit. }
  intros joinsplits. apply (forward_bind 0 0); [|intros ?; apply forward_pure].
  destruct (0 <? length joinsplits)%nat; [|apply forward_pure].
  repeat forward_raw.
Qed.

Lemma forward_BlockHeader : forward 141 BlockHeader.from_bytes.
Proof.
  unfold BlockHeader.from_bytes.
  apply (forward_read_then 4 137); [lia | intros version].
  apply (forward_read_then 32 105); [lia | intros hash_prev].
  apply (forward_read_then 32 73); [lia | intros hash_root].
  apply (forward_read_then 32 41); [lia | intros hash_extra].
  apply (forward_read_then 4 37); [lia | intros time].
  apply (forward_read_then 4 33); [lia | intros bits].
  apply (forward_read_then 32 1); [lia | intros nonce].
  apply (forward_bind 1 0); [apply forward_read_bytes | intros solution].
  apply forward_pure.
Qed.

Lemma forward_Block : forward 142 Block.from_bytes.
Proof.
  unfold Block.from_bytes.
  apply (forward_bind 141 1); [apply forward_BlockHeader | intros header].
  apply (forward_bind 1 0);
    [apply (forward_read_vector 10), forward_Transaction | intros txs].
  apply forward_pure.
Qed.

(** ** Reads at an offset, cut short or not *)

Lemma length_slice_le (off n : nat) (l : bytes) :
  (length (slice off n l) <= n)%nat.
Proof.
  unfold slice. rewrite length_firstn. lia.
Qed.

Lemma remaining_advance_all (s : BytesIO) (k : nat) :
  (length (remaining s) <= k)%nat -> remaining (advance s k) = [].
Proof.
  intros H. rewrite remaining_advance. now apply skipn_all2.
Qed.

Lemma unpack_inv (w : nat) (b : bytes) (s s' : BytesIO) (v : Z) :
  unpack w b s = Ok (v, s') -> length b = w /\ v = le_decode b /\ s' = s.
Proof.
  unfold unpack. destruct (length b =? w)%nat eqn:E; [|discriminate].
  intros H. injection H as <- <-. apply Nat.eqb_eq in E. now repeat split.
Qed.

(** ** OutPoint, TxOut and TxIn *)

(** X4: with fewer than 36 bytes at the cursor [OutPoint.from_bytes]
    raises [struct.error]: a short [hash] leaves nothing for the index. *)
Theorem OutPoint_from_bytes_short (s : BytesIO) :
  (length (remaining s) < 36)%nat ->
  OutPoint.from_bytes s = Raise StructError.
Proof.
  intros H. unfold OutPoint.from_bytes.
  unfold bind at 1. rewrite read_spec.
  unfold bind at 1. rewrite read_spec.
  unfold bind at 1. rewrite unpack_short; [reflexivity|].
  rewrite length_firstn, remaining_advance, length_skipn. lia.
Qed.

Lemma OutPoint_from_bytes_short_witness :
  OutPoint.from_bytes (BytesIO_of (repeat x01 35)) = Raise StructError.
Proof.
  apply OutPoint_from_bytes_short. cbn. lia.
Defined.

(** X5: [TxOut.from_bytes] raises [struct.error] when fewer than 8 bytes
    are left for the value; otherwise it raises what [read_bytes] raises
    after the value, and when [read_bytes] returns, a [pubkey] shorter than
    its declared length included, it returns the value and that
    [pubkey]. *)
Theorem TxOut_from_bytes_eq (s : BytesIO) :
  TxOut.from_bytes s
  = if (length (remaining s) <? 8)%nat then Raise StructError
    else match read_bytes (advance s 8) with
         | Ok (pubkey, s') =>
             Ok (TxOut.mk (le_decode (firstn 8 (remaining s))) pubkey, s')
         | Raise e => Raise e
         end.
Proof.
  unfold TxOut.from_bytes. unfold bind at 1. rewrite read_spec.
  unfold bind at 1.
  destruct (length (remaining s) <? 8)%nat eqn:E.
  - apply Nat.ltb_lt in E. rewrite unpack_short; [reflexivity|].
    rewrite length_firstn. lia.
  - apply Nat.ltb_ge in E.
    rewrite unpack_ok by (rewrite length_firstn; lia).
    rewrite Nat.min_l by assumption.
    unfold bind, pure. destruct (read_bytes (advance s 8)) as [[pk s']|e];
      reflexivity.
Qed.

(** [read_bytes] on a canonical length, the blob and anything after. *)
Lemma read_bytes_layout (s : BytesIO) (enc blob rest : bytes) :
  canonical (Z.of_nat (length blob)) enc ->
  Z.of_nat (length blob) <= MAX_SIZE ->
  remaining s = enc ++ blob ++ rest ->
  read_bytes s = Ok (blob, advance s (length enc + length blob))
  /\ remaining (advance s (length enc + length blob)) = rest.
Proof.
  intros Hc Hmax Hrem.
  assert (Hv : 0 <= Z.of_nat (length blob) <= MAX_SIZE) by lia.
  assert (Hcs : read_compact_size s
                = Ok (Z.of_nat (length blob), advance s (length enc))).
  { pose proof (read_compact_size_eval s) as Hev.
    destruct Hc as [tag Ht Hlt | payload Hw Hd Hlo | payload Hw Hd Hlo
                   | payload Hw Hd Hlo].
    - rewrite (Hev tag [] (blob ++ rest) Hrem);
        unfold payload_width, raw_value, min_value;
        replace (byte_to_Z tag <? 253) with true
          by (symmetry; apply Z.ltb_lt; lia); [|reflexivity].
      rewrite Ht.
      replace (0 <=? Z.of_nat (length blob)) with true
        by (symmetry; apply Z.leb_le; lia).
      replace (Z.of_nat (length blob) <=? MAX_SIZE) with true
        by (symmetry; apply Z.leb_le; lia).
      reflexivity.
    - cbn [app] in Hrem.
      rewrite (Hev xfd payload (blob ++ rest) Hrem) by exact Hw.
      unfold raw_value, min_value. change (byte_to_Z xfd) with 253.
      cbn [Z.ltb Z.eqb Z.compare Pos.compare Pos.compare_cont Pos.eqb].
      rewrite Hd.
      replace (253 <=? Z.of_nat (length blob)) with true
        by (symmetry; apply Z.leb_le; lia).
      replace (Z.of_nat (length blob) <=? MAX_SIZE) with true
        by (symmetry; apply Z.leb_le; lia).
      reflexivity.
    - cbn [app] in Hrem.
      rewrite (Hev xfe payload (blob ++ rest) Hrem) by exact Hw.
      unfold raw_value, min_value. change (byte_to_Z xfe) with 254.
      cbn [Z.ltb Z.eqb Z.compare Pos.compare Pos.compare_cont Pos.eqb].
      rewrite Hd.
      replace (0x10000 <=? Z.of_nat (length blob)) with true
        by (symmetry; apply Z.leb_le; lia).
      replace (Z.of_nat (length blob) <=? MAX_SIZE) with true
        by (symmetry; apply Z.leb_le; lia).
      reflexivity.
    - unfold MAX_SIZE in Hmax. change 0x100000000 with 4294967296 in Hlo.
      lia. }
  assert (Hrem1 : remaining (advance s (length enc)) = blob ++ rest).
  { rewrite remaining_advance, Hrem. apply skipn_length_app. }
  destruct (read_prefix _ _ _ Hrem1) as [R Rem].
  unfold read_bytes, bind. rewrite Hcs, Nat2Z.id, R.
  rewrite advance_advance in Rem |- *. split; [reflexivity | exact Rem].
Qed.

(** X6: on the value on 8 bytes, a canonical length, the script of that
    length and anything after, [TxOut.from_bytes] returns the value and
    the script and moves the cursor past the script. *)
Theorem TxOut_from_bytes_layout
  (s : BytesIO) (val enc script rest : bytes) :
  length val = 8%nat ->
  canonical (Z.of_nat (length script)) enc ->
  Z.of_nat (length script) <= MAX_SIZE ->
  remaining s = val ++ enc ++ script ++ rest ->
  TxOut.from_bytes s
  = Ok (TxOut.mk (le_decode val) script,
        advance s (8 + (length enc + length script))).
Proof.
  intros Hval Hc Hmax Hrem.
  destruct (read_prefix s val _ Hrem) as [R1 Rem1]. rewrite Hval in R1, Rem1.
  destruct (read_bytes_layout _ enc script rest Hc Hmax Rem1) as [R2 _].
  unfold TxOut.from_bytes, bind, pure.
  rewrite R1, unpack_ok by assumption. rewrite R2, advance_advance.
  reflexivity.
Qed.

(** 50 * 10^8 units and an empty script, then two bytes. *)
Lemma TxOut_from_bytes_layout_witness :
  TxOut.from_bytes
    (BytesIO_of [x00; xf2; x05; x2a; x01; x00; x00; x00; x00; x07; x08])
  = Ok (TxOut.mk 5000000000 [],
        advance
          (BytesIO_of
             [x00; xf2; x05; x2a; x01; x00; x00; x00; x00; x07; x08]) 9).
Proof.
  apply (TxOut_from_bytes_layout _
           [x00; xf2; x05; x2a; x01; x00; x00; x00] [x00] [] [x07; x08]).
  - reflexivity.
  - apply canonical_1; reflexivity.
  - discriminate.
  - reflexivity.
Defined.

Lemma OutPoint_from_bytes_prefix (s : BytesIO) (hash idx rest : bytes) :
  length hash = 32%nat -> length idx = 4%nat ->
  remaining s = hash ++ idx ++ rest ->
  OutPoint.from_bytes s = Ok (OutPoint.mk hash (le_decode idx), advance s 36)
  /\ remaining (advance s 36) = rest.
Proof.
  intros Hh Hi Hrem.
  destruct (read_prefix s hash _ Hrem) as [R1 Rem1]. rewrite Hh in R1, Rem1.
  destruct (read_prefix _ idx rest Rem1) as [R2 Rem2]. rewrite Hi in R2, Rem2.
  rewrite advance_advance in R2, Rem2.
  unfold OutPoint.from_bytes, bind, pure.
  rewrite R1, R2, unpack_ok by assumption. split; [reflexivity | exact Rem2].
Qed.

(** X7: on the 32 bytes of a hash, an index, a canonical length, the
    script of that length, a sequence number and anything after,
    [TxIn.from_bytes] returns these fields and moves the cursor past the
    sequence number. *)
Theorem TxIn_from_bytes_layout
  (s : BytesIO) (hash idx enc script seq rest : bytes) :
  length hash = 32%nat -> length idx = 4%nat ->
  canonical (Z.of_nat (length script)) enc ->
  Z.of_nat (length script) <= MAX_SIZE ->
  length seq = 4%nat ->
  remaining s = hash ++ idx ++ enc ++ script ++ seq ++ rest ->
  TxIn.from_bytes s
  = Ok (TxIn.mk (OutPoint.mk hash (le_decode idx)) script (le_decode seq),
        advance s (36 + (length enc + length script) + 4)).
Proof.
  intros Hh Hi Hc Hmax Hq Hrem.
  destruct (OutPoint_from_bytes_prefix s hash idx _ Hh Hi Hrem) as [R1 Rem1].
  destruct (read_bytes_layout _ enc script _ Hc Hmax Rem1) as [R2 Rem2].
  destruct (read_prefix _ seq rest Rem2) as [R3 _]. rewrite Hq in R3.
  unfold TxIn.from_bytes, bind, pure.
  rewrite R1, R2, R3, unpack_ok by assumption.
  now rewrite !advance_advance.
Qed.

(** An input that spends output 1 with a script of 2 bytes. *)
Lemma TxIn_from_bytes_layout_witness :
  TxIn.from_bytes
    (BytesIO_of (repeat xab 32 ++ [x01; x00; x00; x00] ++ [x02] ++ [x51; x52]
                 ++ [xff; xff; xff; xff] ++ []))
  = Ok (TxIn.mk (OutPoint.mk (repeat xab 32) 1) [x51; x52] 4294967295,
        advance
          (BytesIO_of (repeat xab 32 ++ [x01; x00; x00; x00] ++ [x02]
                       ++ [x51; x52] ++ [xff; xff; xff; xff] ++ []))
          43).
Proof.
  apply (TxIn_from_bytes_layout _ (repeat xab 32) [x01; x00; x00; x00]
           [x02] [x51; x52] [xff; xff; xff; xff] []).
  - reflexivity.
  - reflexivity.
  - apply canonical_1; reflexivity.
  - discriminate.
  - reflexivity.
  - reflexivity.
Defined.

(** X8: a decoded [TxIn] is whole: its hash has 32 bytes and its script
    has the length that was declared; a script cut short leaves nothing
    for the sequence number, and the decoder raises. *)
Theorem TxIn_from_bytes_whole (s s' : BytesIO) (t : TxIn.t) :
  TxIn.from_bytes s = Ok (t, s') ->
  exists n s1,
    read_compact_size (advance s 36) = Ok (n, s1)
    /\ length (OutPoint.hash (TxIn.prevout t)) = 32%nat
    /\ Z.of_nat (length (TxIn.script_sig t)) = n
    /\ s' = advance s1 (Z.to_nat n + 4).
Proof.
  unfold TxIn.from_bytes. intros H.
  bind_inv_as H prevout sa E1. bind_inv_as H sg sb E2.
  bind_inv_as H b4 sc E3. bind_inv_as H sn sd E4.
  injection H as <- <-.
  destruct (forward_OutPoint s prevout sa E1) as (k & _ & Hk).
  assert (H36 : (0 + 36 <= length (remaining s))%nat) by lia.
  pose proof (OutPoint_from_bytes_at s 0 H36) as E1'.
  rewrite advance_0, E1 in E1'. injection E1' as -> ->.
  unfold read_bytes in E2. bind_inv_as E2 n s1 Ecs.
  pose proof (read_compact_size_range _ _ _ Ecs) as Hn.
  apply read_inv in E2. destruct E2 as [-> ->].
  apply read_inv in E3. destruct E3 as [-> ->].
  apply unpack_inv in E4. destruct E4 as (E & _ & ->).
  rewrite length_firstn, remaining_advance, length_skipn in E.
  exists n, s1. split; [exact Ecs|].
  cbn [TxIn.prevout TxIn.script_sig OutPoint.hash].
  split; [apply length_slice; lia|].
  rewrite length_firstn, advance_advance, remaining_advance, length_skipn.
  split; [lia | f_equal; lia].
Qed.

Lemma TxIn_from_bytes_whole_witness :
  exists n s1,
    read_compact_size
      (advance (BytesIO_of (repeat xab 36 ++ [x02; x51; x52]
                            ++ [xff; xff; xff; xff])) 36) = Ok (n, s1)
    /\ n = 2.
Proof.
  destruct (TxIn_from_bytes_whole
              (BytesIO_of (repeat xab 36 ++ [x02; x51; x52]
                           ++ [xff; xff; xff; xff]))
              (advance (BytesIO_of (repeat xab 36 ++ [x02; x51; x52]
                                    ++ [xff; xff; xff; xff])) 43)
              (TxIn.mk (OutPoint.mk (repeat xab 32) 2880154539)
                 [x51; x52] 4294967295) eq_refl)
    as (n & s1 & Hcs & _ & Hlen & _).
  exists n, s1. split; [exact Hcs | now rewrite <- Hlen].
Defined.

(** ** BlockHeader and Block *)

(** The header on any buffer: the fixed fields are raw reads, and the
    solution is read where they end. *)
Lemma BlockHeader_from_bytes_min (s : BytesIO) :
  BlockHeader.from_bytes s
  = match read_bytes (advance s (Nat.min 140 (length (remaining s)))) with
    | Ok (sol, s') => Ok (BlockHeader_at (remaining s) sol, s')
    | Raise e => Raise e
    end.
Proof.
  rewrite <- (advance_min_0 s) at 1. unfold BlockHeader.from_bytes.
  do 7 (unfold bind at 1; rewrite read_at_min; cbn [Nat.add]).
  unfold bind, pure.
  destruct (read_bytes _) as [[sol s']|e]; reflexivity.
Qed.

(** X9: a header is decoded from 141 bytes or more only, and then its
    fixed fields are the 4, 32, 32, 32, 4, 4 and 32 bytes at the offsets 0,
    4, 36, 68, 100, 104 and 108, none cut short, and its solution is the
    blob read at offset 140. *)
Theorem BlockHeader_from_bytes_inv
  (s s' : BytesIO) (h : BlockHeader.t) :
  BlockHeader.from_bytes s = Ok (h, s') <->
  (141 <= length (remaining s))%nat
  /\ h = BlockHeader_at (remaining s) (BlockHeader.solution h)
  /\ read_bytes (advance s 140) = Ok (BlockHeader.solution h, s').
Proof.
  split.
  - intros H. destruct (forward_BlockHeader s h s' H) as (k & _ & Hk).
    rewrite BlockHeader_from_bytes_min, Nat.min_l in H by lia.
    destruct (read_bytes (advance s 140)) as [[sol s1]|e]; [|discriminate].
    injection H as <- <-. split; [lia|]. split; reflexivity.
  - intros (HL & Hh & Hsol).
    rewrite BlockHeader_from_bytes_min, Nat.min_l, Hsol by lia.
    now rewrite <- Hh.
Qed.

(** 140 bytes and an empty solution. *)
Lemma BlockHeader_from_bytes_inv_witness :
  (141 <= length (remaining (BytesIO_of (repeat x07 140 ++ [x00]))))%nat
  /\ read_bytes (advance (BytesIO_of (repeat x07 140 ++ [x00])) 140)
     = Ok ([], advance (BytesIO_of (repeat x07 140 ++ [x00])) 141).
Proof.
  destruct (proj1 (BlockHeader_from_bytes_inv
                     (BytesIO_of (repeat x07 140 ++ [x00]))
                     (advance (BytesIO_of (repeat x07 140 ++ [x00])) 141)
                     (BlockHeader.mk (repeat x07 4) (repeat x07 32)
                        (repeat x07 32) (repeat x07 32) (repeat x07 4)
                        (repeat x07 4) (repeat x07 32) []))
              eq_refl) as (HL & _ & Hsol).
  split; [exact HL | exact Hsol].
Defined.

Lemma BlockHeader_at_lengths (l sol : bytes) :
  (140 <= length l)%nat ->
  map (@length byte)
    [BlockHeader.version (BlockHeader_at l sol);
     BlockHeader.hash_prev (BlockHeader_at l sol);
     BlockHeader.hash_root (BlockHeader_at l sol);
     BlockHeader.hash_extra (BlockHeader_at l sol);
     BlockHeader.time (BlockHeader_at l sol);
     BlockHeader.bits (BlockHeader_at l sol);
     BlockHeader.nonce (BlockHeader_at l sol)]
  = [4; 32; 32; 32; 4; 4; 32]%nat.
Proof.
  intros H. unfold BlockHeader_at.
  cbn [map BlockHeader.version BlockHeader.hash_prev BlockHeader.hash_root
       BlockHeader.hash_extra BlockHeader.time BlockHeader.bits
       BlockHeader.nonce].
  now rewrite !length_slice by lia.
Qed.

(** With one byte or none left, the compact-size reader can only raise
    [struct.error]. *)
Lemma read_compact_size_raise_1 (s : BytesIO) (e : exn) :
  (length (remaining s) <= 1)%nat ->
  read_compact_size s = Raise e -> e = StructError.
Proof.
  intros HL H. destruct (remaining s) as [|tag [|x l]] eqn:E.
  - rewrite read_compact_size_empty in H by assumption. congruence.
  - destruct (payload_width (byte_to_Z tag)) as [|w] eqn:Ew.
    + pose proof (byte_to_Z_range tag) as Ht.
      rewrite (read_compact_size_eval s tag [] [] E) in H
        by (symmetry; exact Ew).
      unfold min_value, raw_value in H.
      destruct (payload_width_cases (byte_to_Z tag))
        as [[Hn _]|[[_ Hpw]|[[_ Hpw]|[_ Hpw]]]]; try congruence.
      replace (byte_to_Z tag <? 253) with true in H
        by (symmetry; apply Z.ltb_lt; lia).
      replace (0 <=? byte_to_Z tag) with true in H
        by (symmetry; apply Z.leb_le; lia).
      replace (byte_to_Z tag <=? MAX_SIZE) with true in H
        by (symmetry; apply Z.leb_le; unfold MAX_SIZE; lia).
      discriminate.
    + rewrite (read_compact_size_cut s tag [] E) in H
        by (rewrite Ew; cbn; lia).
      congruence.
  - cbn [length] in HL. lia.
Qed.

(** X10: with 140 bytes or fewer at the cursor [BlockHeader.from_bytes]
    raises [struct.error]: the fixed fields take what is there and nothing
    is left for the length of the solution. *)
Theorem BlockHeader_from_bytes_short (s : BytesIO) :
  (length (remaining s) <= 140)%nat ->
  BlockHeader.from_bytes s = Raise StructError.
Proof.
  intros H. rewrite BlockHeader_from_bytes_min, Nat.min_r by assumption.
  unfold read_bytes, bind.
  rewrite read_compact_size_empty; [reflexivity|].
  now apply remaining_advance_all.
Qed.

Lemma BlockHeader_from_bytes_short_witness :
  BlockHeader.from_bytes (BytesIO_of (repeat x07 140)) = Raise StructError.
Proof.
  apply BlockHeader_from_bytes_short. cbn. lia.
Defined.

(** X11: a block that is decoded has taken 142 bytes or more, the 140 of
    the fixed header and the two counts at least, and no more than the
    buffer held from the cursor on; the buffer is the same. *)
Theorem Block_from_bytes_within (s s' : BytesIO) (blk : Block.t) :
  Block.from_bytes s = Ok (blk, s') ->
  exists k, s' = advance s k /\ (142 <= k <= length (remaining s))%nat.
Proof.
  intros H. unfold Block.from_bytes in H.
  bind_inv_as H header s1 Eh. bind_inv_as H txs s2 Et.
  injection H as _ <-.
  destruct (forward_BlockHeader _ _ _ Eh) as (k1 & -> & Hk1).
  destruct (forward_read_vector 10 _ forward_Transaction _ _ _ Et)
    as (k2 & -> & Hk2).
  rewrite remaining_advance, length_skipn in Hk2.
  exists (k1 + k2)%nat. split; [apply advance_advance | lia].
Qed.

Lemma Block_from_bytes_within_witness :
  exists k,
    advance (BytesIO_of (zero_payload ++ [x01; x02])) 142
    = advance (BytesIO_of (zero_payload ++ [x01; x02])) k
    /\ (142 <= k <= 144)%nat.
Proof.
  exact (Block_from_bytes_within
           (BytesIO_of (zero_payload ++ [x01; x02]))
           (advance (BytesIO_of (zero_payload ++ [x01; x02])) 142)
           zero_block eq_refl).
Defined.

(** X12: with fewer than 142 bytes at the cursor [Block.from_bytes] raises
    [struct.error]. *)
Theorem Block_from_bytes_short (s : BytesIO) :
  (length (remaining s) < 142)%nat ->
  Block.from_bytes s = Raise StructError.
Proof.
  intros HL. unfold Block.from_bytes. unfold bind at 1.
  destruct (BlockHeader.from_bytes s) as [[h s1]|e] eqn:E.
  - destruct (forward_BlockHeader s h s1 E) as (k & -> & Hk).
    unfold read_vector. unfold bind at 1. unfold bind at 1.
    rewrite read_compact_size_empty; [reflexivity|].
    apply remaining_advance_all. lia.
  - f_equal. rewrite BlockHeader_from_bytes_min in E.
    destruct (read_bytes _) as [[sol s1]|e'] eqn:Eb; [discriminate|].
    injection E as <-. apply read_bytes_raise in Eb.
    apply (read_compact_size_raise_1
             (advance s (Nat.min 140 (length (remaining s)))));
      [rewrite remaining_advance, length_skipn; lia | exact Eb].
Qed.

Lemma Block_from_bytes_short_witness :
  Block.from_bytes (BytesIO_of (repeat x00 141)) = Raise StructError.
Proof.
  apply Block_from_bytes_short. cbn. lia.
Defined.

(** ** Sequences *)

Lemma read_elems_app {T} (m : M T) (a b : nat) (s : BytesIO) :
  read_elems m (a + b) s
  = (l1 <- read_elems m a ;; l2 <- read_elems m b ;; pure (l1 ++ l2)) s.
Proof.
  revert s. induction a as [|a IH]; intros s; cbn [Nat.add read_elems].
  - unfold bind, pure. cbn [app].
    destruct (read_elems m b s) as [[l2 s2]|e]; reflexivity.
  - unfold bind, pure in IH |- *.
    destruct (m s) as [[x s1]|e]; [|reflexivity].
    rewrite IH.
    destruct (read_elems m a s1) as [[l1 s2]|e]; [|reflexivity].
    destruct (read_elems m b s2) as [[l2 s3]|e]; reflexivity.
Qed.

(** X13: the sequence [read_vector] returns has as many elements as the
    count it read, 33,554,432 at most. *)
Theorem read_vector_length {T} (m : M T) (s s' : BytesIO) (l : list T) :
  read_vector m s = Ok (l, s') ->
  exists n s1,
    read_compact_size s = Ok (n, s1)
    /\ Z.of_nat (length l) = n /\ Z.of_nat (length l) <= MAX_SIZE.
Proof.
  unfold read_vector. intros H. bind_inv_as H n s1 E.
  pose proof (read_compact_size_range _ _ _ E) as Hn.
  apply read_elems_length in H.
  exists n, s1. split; [exact E|]. rewrite H. lia.
Qed.

(** Two outputs. *)
Lemma read_vector_length_witness :
  exists n s1,
    read_compact_size (BytesIO_of (x02 :: repeat x00 18)) = Ok (n, s1)
    /\ 2 = n.
Proof.
  destruct (read_vector_length TxOut.from_bytes
              (BytesIO_of (x02 :: repeat x00 18))
              (advance (BytesIO_of (x02 :: repeat x00 18)) 19)
              [TxOut.mk 0 []; TxOut.mk 0 []] eq_refl)
    as (n & s1 & E & Hn & _).
  exists n, s1. split; [exact E | exact Hn].
Defined.

(** X14: when the decoder of the elements raises on one of the elements
    that the count announces, [read_vector] raises the same exception: the
    elements decoded before it are not returned. *)
Theorem read_vector_raise {T} (m : M T)
  (s s1 s2 : BytesIO) (n : Z) (k : nat) (l : list T) (e : exn) :
  read_compact_size s = Ok (n, s1) ->
  (k < Z.to_nat n)%nat ->
  read_elems m k s1 = Ok (l, s2) ->
  m s2 = Raise e ->
  read_vector m s = Raise e.
Proof.
  intros Hcs Hk Hl He. unfold read_vector, bind. rewrite Hcs.
  replace (Z.to_nat n) with (k + S (Z.to_nat n - k - 1))%nat by lia.
  rewrite read_elems_app. unfold bind at 1. rewrite Hl.
  cbn [read_elems]. unfold bind. now rewrite He.
Qed.

(** Three inputs announced, one there and the second cut short. *)
Lemma read_vector_raise_witness :
  read_vector TxIn.from_bytes
    (BytesIO_of (x03 :: repeat x00 41 ++ repeat x00 40))
  = Raise StructError.
Proof.
  apply (read_vector_raise TxIn.from_bytes
           (BytesIO_of (x03 :: repeat x00 41 ++ repeat x00 40))
           (advance (BytesIO_of (x03 :: repeat x00 41 ++ repeat x00 40)) 1)
           (advance (BytesIO_of (x03 :: repeat x00 41 ++ repeat x00 40)) 42)
           3 1 [TxIn.mk (OutPoint.mk (repeat x00 32) 0) [] 0]).
  - reflexivity.
  - cbn. lia.
  - reflexivity.
  - reflexivity.
Defined.

(** ** Transaction *)

(** X15: a transaction that is decoded has taken 10 bytes or more, the
    version, the two counts and the lock time, and no more than the
    buffer held from the cursor on. *)
Theorem Transaction_from_bytes_within
  (s s' : BytesIO) (tx : Transaction.t) :
  Transaction.from_bytes s = Ok (tx, s') ->
  exists k, s' = advance s k /\ (10 <= k <= length (remaining s))%nat.
Proof.
  intros H. destruct (forward_Transaction s tx s' H) as (k & Hs & Hk).
  exists k. split; [exact Hs | exact Hk].
Qed.

Lemma Transaction_from_bytes_within_witness :
  exists k,
    advance (BytesIO_of (x01 :: repeat x00 9)) 10
    = advance (BytesIO_of (x01 :: repeat x00 9)) k
    /\ (10 <= k <= 10)%nat.
Proof.
  exact (Transaction_from_bytes_within
           (BytesIO_of (x01 :: repeat x00 9))
           (advance (BytesIO_of (x01 :: repeat x00 9)) 10)
           (Transaction.mk 1 [] [] 0 [] [] []) eq_refl).
Defined.

(** X16: a transaction without input and without output.  When its
    version is below 2 it is its 10 bytes, and the buffer may end there:
    no join-split, key or signature is read.  When its version is 2 or
    more the count of the join-splits is read after the lock time: with a
    count of 0 the transaction is its 11 bytes, and with nothing after the
    lock time the decoder raises [struct.error]. *)
Theorem Transaction_from_bytes_empty
  (s : BytesIO) (ver lt rest : bytes) :
  length ver = 4%nat -> length lt = 4%nat ->
  remaining s = ver ++ [x00; x00] ++ lt ++ rest ->
  (le_decode ver < 2 ->
   Transaction.from_bytes s
   = Ok (Transaction.mk (le_decode ver) [] [] (le_decode lt) [] [] [],
         advance s 10))
  /\ (2 <= le_decode ver ->
      (forall rest', rest = x00 :: rest' ->
         Transaction.from_bytes s
         = Ok (Transaction.mk (le_decode ver) [] [] (le_decode lt) [] [] [],
               advance s 11))
      /\ (rest = [] -> Transaction.from_bytes s = Raise StructError)).
Proof.
  intros Hv Hl Hrem.
  assert (Hzero : forall f r, remaining f = x00 :: r ->
            read_compact_size f = Ok (0, advance f 1)).
  { intros f r Hf.
    now rewrite (read_compact_size_eval f x00 [] r Hf eq_refl). }
  destruct (read_prefix s ver _ Hrem) as [R1 Rem1]. rewrite Hv in R1, Rem1.
  pose proof (Hzero _ _ Rem1) as C1.
  assert (Rem2 : remaining (advance (advance s 4) 1) = [x00] ++ lt ++ rest)
    by (now rewrite remaining_advance, Rem1).
  pose proof (Hzero _ _ Rem2) as C2.
  assert (Rem3 : remaining (advance (advance (advance s 4) 1) 1)
                 = lt ++ rest)
    by (now rewrite remaining_advance, Rem2).
  destruct (read_prefix _ lt rest Rem3) as [R4 Rem4]. rewrite Hl in R4, Rem4.
  assert (Hpre :
    Transaction.from_bytes s
    = (joinsplits <- (if le_decode ver >=? 2
                      then read_vector JoinSplit.from_bytes else pure []) ;;
       keysig <- (if (0 <? length joinsplits)%nat then
                    joinsplit_pubkey <- read 32 ;;
                    joinsplit_sig <- read 64 ;;
                    pure (joinsplit_pubkey, joinsplit_sig)
                  else pure ([], [])) ;;
       pure (Transaction.mk (le_decode ver) [] [] (le_decode lt) joinsplits
               (fst keysig) (snd keysig)))
        (advance s 10)).
  { unfold Transaction.from_bytes.
    unfold bind at 1. rewrite R1. unfold bind at 1.
    rewrite unpack_ok by assumption.
    unfold bind at 1. unfold read_vector at 1. unfold bind at 1.
    rewrite C1. cbn [Z.to_nat read_elems]. unfold pure at 1.
    unfold bind at 1. unfold read_vector at 1. unfold bind at 1.
    rewrite C2. cbn [Z.to_nat read_elems]. unfold pure at 1.
    unfold bind at 1. rewrite R4. unfold bind at 1.
    rewrite unpack_ok by assumption. rewrite !advance_advance.
    reflexivity. }
  rewrite Hpre.
  rewrite !advance_advance in Rem4. cbn [Nat.add] in Rem4.
  split.
  - intros Hlt. rewrite Z.geb_leb.
    replace (2 <=? le_decode ver) with false by (symmetry; now apply Z.leb_gt).
    reflexivity.
  - intros Hge. rewrite Z.geb_leb.
    replace (2 <=? le_decode ver) with true by (symmetry; now apply Z.leb_le).
    split.
    + intros rest' ->. unfold bind at 1. unfold read_vector, bind at 1.
      rewrite (Hzero _ _ Rem4). cbn [Z.to_nat read_elems]. unfold pure at 1.
      rewrite advance_advance. reflexivity.
    + intros ->. unfold bind at 1. unfold read_vector, bind at 1.
      now rewrite read_compact_size_empty.
Qed.

(** Version 1, and the end of the buffer after the lock time. *)
Lemma Transaction_from_bytes_empty_witness :
  Transaction.from_bytes
    (BytesIO_of ([x01; x00; x00; x00] ++ [x00; x00]
                 ++ [x10; x00; x00; x00] ++ []))
  = Ok (Transaction.mk 1 [] [] 16 [] [] [],
        advance (BytesIO_of ([x01; x00; x00; x00] ++ [x00; x00]
                             ++ [x10; x00; x00; x00] ++ [])) 10).
Proof.
  destruct (Transaction_from_bytes_empty
              (BytesIO_of ([x01; x00; x00; x00] ++ [x00; x00]
                           ++ [x10; x00; x00; x00] ++ []))
              [x01; x00; x00; x00] [x10; x00; x00; x00] [])
    as [Hv1 _].
  - reflexivity.
  - reflexivity.
  - reflexivity.
  - apply Hv1. reflexivity.
Defined.

(** ** More on the block-file reader *)

(** A turn of the loop on a whole record whose payload is refused. *)
Lemma read_record_refused
  (e : bytes) (f : BytesIO) (p rest : bytes) (x : exn) :
  remaining f = le_encode 4 (Z.of_nat (length p)) ++ p ++ rest ->
  Z.of_nat (length p) < 2 ^ 32 ->
  Block.from_bytes (BytesIO_of p) = Raise x ->
  read_record e e f = Raise x.
Proof.
  intros Hf Hp Hblk.
  destruct (read_prefix f _ _ Hf) as [R1 Rem1].
  rewrite length_le_encode in R1, Rem1.
  destruct (read_prefix _ _ _ Rem1) as [R2 _].
  unfold read_record, bind, py_assert, pure.
  rewrite bytes_eqb_refl, R1, unpack_ok by apply length_le_encode.
  rewrite le_decode_encode by (change (256 ^ Z.of_nat 4) with (2 ^ 32); lia).
  now rewrite Nat2Z.id, R2, Hblk.
Qed.

(** X17: when the payload of a record is refused by [Block.from_bytes],
    [read_blockfile] raises the same exception, whatever comes after the
    record in the file: the blocks of the records before it are not
    returned. *)
Theorem read_blockfile_block_error
  (e : bytes) (payloads : list bytes) (blks : list Block.t)
  (p rest : bytes) (x : exn) :
  e <> [] -> Forall2 decodes_to payloads blks ->
  Z.of_nat (length p) < 2 ^ 32 ->
  Block.from_bytes (BytesIO_of p) = Raise x ->
  read_blockfile (records e payloads ++ record_bytes e p ++ rest) e
  = Some (Raise x).
Proof.
  intros He Hrec Hp Hblk.
  rewrite read_blockfile_read_from, (read_from_records e _ _ He Hrec).
  unfold record_bytes. rewrite <- !app_assoc.
  unfold read_from. cbn [blockfile_loop].
  rewrite firstn_length_app, skipn_length_app, length_pos by assumption.
  now rewrite (read_record_refused e
                 (BytesIO_of (le_encode 4 (Z.of_nat (length p)) ++ p ++ rest))
                 p rest x eq_refl Hp Hblk).
Qed.

(** A whole record, a record of 3 bytes and a third record. *)
Lemma read_blockfile_block_error_witness :
  read_blockfile
    (records [xf9; xbe] [zero_payload]
     ++ record_bytes [xf9; xbe] [x01; x02; x03]
     ++ record_bytes [xf9; xbe] zero_payload) [xf9; xbe]
  = Some (Raise StructError).
Proof.
  apply (read_blockfile_block_error [xf9; xbe] [zero_payload] [zero_block]).
  - discriminate.
  - constructor; [exact zero_payload_decodes | constructor].
  - reflexivity.
  - reflexivity.
Defined.

(** A turn of the loop takes the magic it was entered with, the size
    and the 142 bytes of a block at least. *)
Lemma read_record_cost (e m : bytes) (f f' : BytesIO)
  (b : Block.t) (m' : bytes) :
  read_record e m f = Ok ((b, m'), f') ->
  m = e
  /\ (length m' + length (remaining f') + 146 <= length (remaining f))%nat.
Proof.
  unfold read_record. intros H.
  bind_inv_as H u f0 A. unfold py_assert in A.
  destruct (bytes_eqb m e) eqn:Em; [|discriminate].
  injection A as _ <-. apply bytes_eqb_eq in Em.
  bind_inv_as H b4 f1 R1. bind_inv_as H size f1' U.
  apply unpack_inv in U. destruct U as (H4 & _ & ->).
  bind_inv_as H p f2 R2. bind_inv_as H blk f2' B.
  destruct (Block.from_bytes (BytesIO_of p)) as [[blk0 cur]|] eqn:Eb;
    [|discriminate].
  injection B as _ <-.
  bind_inv_as H mg f3 R3. injection H as _ <- <-.
  destruct (forward_Block _ _ _ Eb) as (k & _ & Hk).
  rewrite remaining_BytesIO_of in Hk.
  apply read_length in R1, R2, R3. split; [exact Em | lia].
Qed.

Lemma blockfile_loop_count (e : bytes) (fuel : nat) :
  forall (m : bytes) (ret : list Block.t) (f : BytesIO)
         (blks : list Block.t),
    blockfile_loop fuel e m ret f = Some (Ok blks) ->
    exists more,
      blks = ret ++ more
      /\ (length more * (length e + 146)
          <= length m + length (remaining f))%nat.
Proof.
  induction fuel as [|fuel IH]; intros m ret f blks H; [discriminate|].
  cbn [blockfile_loop] in H. destruct (0 <? length m)%nat.
  - destruct (read_record e m f) as [[[b m1] f1]|x] eqn:R; [|discriminate].
    apply read_record_cost in R. destruct R as [-> Hcost].
    destruct (IH _ _ _ _ H) as (more & -> & Hmore).
    exists (b :: more). split; [now rewrite <- app_assoc|].
    cbn [length]. lia.
  - injection H as <-. exists []. split; [now rewrite app_nil_r | cbn; lia].
Qed.

(** X18: every block that [read_blockfile] returns stands for a record of
    the file, its magic, its size and the 142 bytes of a block at least:
    the file has [len(expected_prefix) + 146] bytes or more for each. *)
Theorem read_blockfile_count (file e : bytes) (blks : list Block.t) :
  read_blockfile file e = Some (Ok blks) ->
  (length blks * (length e + 146) <= length file)%nat.
Proof.
  rewrite read_blockfile_read_from. unfold read_from. intros H.
  apply blockfile_loop_count in H. destruct H as (more & Hb & Hmore).
  cbn [app] in Hb. subst more.
  rewrite remaining_BytesIO_of, length_firstn, length_skipn in Hmore. lia.
Qed.

Lemma read_blockfile_count_witness :
  (length [zero_block; zero_block] * (length [xf9; xbe] + 146)
   <= length slack_file)%nat.
Proof.
  apply (read_blockfile_count slack_file [xf9; xbe] [zero_block; zero_block]).
  vm_compute. reflexivity.
Defined.

(** ** The rendering of an OutPoint *)

Lemma hex_digit_in (n : N) : In (hex_digit n) hex_digits.
Proof.
  unfold hex_digit.
  destruct (Nat.lt_ge_cases (N.to_nat n) (length hex_digits)) as [H|H].
  - now apply nth_In.
  - rewrite nth_overflow by assumption. now left.
Qed.

Lemma hex_digit_not_quote (n : N) : hex_digit n <> "'"%char.
Proof.
  pose proof (hex_digit_in n) as H. unfold hex_digits in H.
  cbn [In] in H.
  repeat (destruct H as [H|H]; [rewrite <- H; discriminate|]).
  contradiction.
Qed.

Lemma hex_digits_NoDup : NoDup hex_digits.
Proof.
  unfold hex_digits.
  repeat (constructor; [cbn [In]; intros H;
                        repeat (destruct H as [H|H]; [discriminate H|]);
                        exact H|]).
  constructor.
Qed.

Lemma hex_digit_inj (a b : N) :
  (a < 16)%N -> (b < 16)%N -> hex_digit a = hex_digit b -> a = b.
Proof.
  intros Ha Hb H.
  assert (E : N.to_nat a = N.to_nat b); [|lia].
  apply (proj1 (NoDup_nth hex_digits "0"%char) hex_digits_NoDup);
    [change (length hex_digits) with 16%nat; lia
    |change (length hex_digits) with 16%nat; lia
    |exact H].
Qed.

Lemma byte_of_nibbles (x y : byte) :
  hex_digit (Byte.to_N x / 16) = hex_digit (Byte.to_N y / 16) ->
  hex_digit (Byte.to_N x mod 16) = hex_digit (Byte.to_N y mod 16) ->
  x = y.
Proof.
  intros Hhi Hlo.
  pose proof (Byte.to_N_bounded x) as Hx.
  pose proof (Byte.to_N_bounded y) as Hy.
  apply hex_digit_inj in Hhi;
    [|apply N.Div0.div_lt_upper_bound; lia
     |apply N.Div0.div_lt_upper_bound; lia].
  apply hex_digit_inj in Hlo; [|apply N.mod_lt; lia|apply N.mod_lt; lia].
  assert (H : Byte.to_N x = Byte.to_N y).
  { rewrite (N.div_mod (Byte.to_N x) 16), (N.div_mod (Byte.to_N y) 16) by lia.
    now rewrite Hhi, Hlo. }
  pose proof (Byte.of_to_N x) as Ex. rewrite H, Byte.of_to_N in Ex.
  congruence.
Qed.

(** The digits of two byte strings, each closed by a quote: the quote
    is no digit, so the strings and what follows them are the same. *)
Lemma hexlify_quote_inj (a b : bytes) (x y : String.string) :
  String.append (hexlify a) (String.String "'" x)
  = String.append (hexlify b) (String.String "'" y) ->
  a = b /\ x = y.
Proof.
  revert b. induction a as [|c a IH]; intros [|d b] H; cbn in H.
  - injection H as ->. now split.
  - injection H as H _. symmetry in H. now apply hex_digit_not_quote in H.
  - injection H as H _. now apply hex_digit_not_quote in H.
  - injection H as Hhi Hlo H. apply IH in H. destruct H as [-> ->].
    now rewrite (byte_of_nibbles c d Hhi Hlo).
Qed.

Lemma to_int_not_nil (n : Z) :
  Z.to_int n <> Decimal.Pos Decimal.Nil /\ Z.to_int n <> Decimal.Neg Decimal.Nil.
Proof.
  destruct n as [|p|p]; cbn; split; try discriminate;
    intros H; injection H as H;
    now apply DecimalPos.Unsigned.to_uint_nonnil in H.
Qed.

Lemma str_int_inj (a b : Z) : str_int a = str_int b -> a = b.
Proof.
  unfold str_int. intros H.
  apply (f_equal DecimalString.NilZero.int_of_string) in H.
  destruct (to_int_not_nil a) as [Ha1 Ha2].
  destruct (to_int_not_nil b) as [Hb1 Hb2].
  rewrite !DecimalString.NilZero.isi in H by assumption.
  injection H as H. now apply DecimalZ.to_int_inj.
Qed.

(** X19: [OutPoint.__repr__] tells OutPoints apart: two OutPoints with
    the same rendering have the same hash and the same index. *)
Theorem OutPoint_repr_inj (a b : OutPoint.t) :
  OutPoint_repr a = OutPoint_repr b -> a = b.
Proof.
  destruct a as [ha na], b as [hb nb]. unfold OutPoint_repr.
  cbn [OutPoint.hash OutPoint.n]. intros H.
  cbn [String.append] in H. injection H as H.
  apply hexlify_quote_inj in H. destruct H as [Hh Hn].
  injection Hn as Hn. apply str_int_inj in Hn.
  apply (f_equal (@rev byte)) in Hh. rewrite !rev_involutive in Hh.
  now subst.
Qed.

(** The rendering of the output 7 of the transaction 01 02 ... *)
Lemma OutPoint_repr_inj_witness :
  OutPoint.mk [x01; x02; xab] 7 = OutPoint.mk [x01; x02; xab] 7.
Proof.
  apply OutPoint_repr_inj. reflexivity.
Defined.

Example OutPoint_repr_example :
  OutPoint_repr (OutPoint.mk [x01; x02; xab] 70) = "b'ab0201':70"%string.
Proof. reflexivity. Qed.

(** ** A bound on blobs *)

(** X21: the blob [read_bytes] returns has 33,554,432 bytes at most, and
    no more than what the buffer held after the first byte of the length
    prefix. *)
Theorem read_bytes_bound (s s' : BytesIO) (b : bytes) :
  read_bytes s = Ok (b, s') ->
  Z.of_nat (length b) <= MAX_SIZE
  /\ (length b < length (remaining s))%nat.
Proof.
  unfold read_bytes. intros H. bind_inv_as H n s1 E.
  pose proof (read_compact_size_range _ _ _ E) as Hn.
  destruct (forward_read_compact_size _ _ _ E) as (k & -> & Hk).
  apply read_inv in H. destruct H as [-> _].
  rewrite length_firstn, remaining_advance, length_skipn. lia.
Qed.

Lemma read_bytes_bound_witness :
  Z.of_nat (length [x0a; x0b]) <= MAX_SIZE
  /\ (length [x0a; x0b]
      < length (remaining (BytesIO_of [x02; x0a; x0b; x0c])))%nat.
Proof.
  exact (read_bytes_bound (BytesIO_of [x02; x0a; x0b; x0c])
           (advance (BytesIO_of [x02; x0a; x0b; x0c]) 3) [x0a; x0b] eq_refl).
Defined.
